(** * SP-dock: the matching-and-alignment engine of [src/docker/docker.cpp]

    A shallow embedding of [geodesic_distance], [comp_point],
    [build_cloud_from_group], [Docker::build_matching_groups] and
    [Docker::transformations_from_matching_groups], followed by the
    properties of the specification that concern them.

    Conventions of the embedding.
    - [double] is IEEE-754 binary64, given by the executable specification
      [SpecFloat] of the standard library (precision 53, emax 1024,
      round-to-nearest-even).  NaN, infinities and signed zeros are values.
    - [int] is a 32-bit signed integer held in [Z]; container sizes are
      assumed to fit in it.
    - Operations whose behaviour C++ leaves undefined (indexing a vector out
      of range, converting a double outside the range of [int], erasing an
      iterator range that starts past the end) yield [Undefined].
    - [std::sort] is given by its result where [operator<] meets the
      requirement of the call, a strict weak order on the entries
      ([strict_weak_on]); where it does not, the call is undefined in C++
      and the statements on the ranked order do not extend there. *)

From Stdlib Require Import ZArith List Bool Lia.
From Stdlib Require Import Sorting.Sorted Sorting.Permutation.
From Stdlib Require Import Floats.SpecFloat.
Import ListNotations.
Open Scope Z_scope.

(** ** Outcomes of C++ evaluations *)

Inductive fault : Set :=
  | index_out_of_range      (* std::vector::operator[] past the end *)
  | double_out_of_int_range (* floating-integral conversion that does not fit *)
  | invalid_erase_range.    (* vector::erase(first, last) with first past last *)

Inductive result (A : Type) : Type :=
  | Ok (a : A)
  | Undefined (f : fault).
Arguments Ok {A} a.
Arguments Undefined {A} f.

Definition bind {A B : Type} (r : result A) (k : A -> result B) : result B :=
  match r with
  | Ok a => k a
  | Undefined f => Undefined f
  end.

Notation "x <- r ;; k" := (bind r (fun x => k))
  (at level 61, r at next level, right associativity).
Notation "' p <- r ;; k" := (bind r (fun p => k))
  (at level 61, p pattern, r at next level, right associativity).

(** [v[i]] for a [std::vector] and an [int] index. *)
Definition at_index {A : Type} (v : list A) (i : Z) : result A :=
  if i <? 0 then Undefined index_out_of_range
  else match nth_error v (Z.to_nat i) with
       | Some a => Ok a
       | None => Undefined index_out_of_range
       end.

(** ** IEEE-754 binary64 *)

Module IEEE.

Definition double : Set := spec_float.

Definition prec : Z := 53.
Definition emax : Z := 1024.

Definition add : double -> double -> double := SFadd prec emax.
Definition sub : double -> double -> double := SFsub prec emax.
Definition mul : double -> double -> double := SFmul prec emax.
Definition div : double -> double -> double := SFdiv prec emax.
Definition sqrt : double -> double := SFsqrt prec emax.
Definition neg : double -> double := SFopp.
Definition fabs : double -> double := SFabs.
Definition ltb : double -> double -> bool := SFltb.
Definition eqb : double -> double -> bool := SFeqb.
Definition leb : double -> double -> bool := SFleb.

(** [m * 2^e], rounded: used to write literals. *)
Definition lit (m e : Z) : double := binary_normalize prec emax m e false.

Definition zero : double := S754_zero false.
Definition one : double := lit 1 0.
Definition two : double := lit 2 0.
Definition nan : double := S754_nan.

(** [glm::pi<double>()], the binary64 nearest to pi (0x400921FB54442D18). *)
Definition pi : double := lit 7074237752028440 (-51).

Definition is_nan (x : double) : bool :=
  match x with S754_nan => true | _ => false end.

Definition is_finite (x : double) : bool :=
  match x with S754_zero _ | S754_finite _ _ _ => true | _ => false end.

Definition is_zero (x : double) : bool :=
  match x with S754_zero _ => true | _ => false end.

(** [std::max(a, b)] is [(a < b) ? b : a]. *)
Definition max (a b : double) : double := if ltb a b then b else a.

Definition INT_MIN : Z := - 2 ^ 31.
Definition INT_MAX : Z := 2 ^ 31 - 1.

(** Integral part of a finite double, fraction discarded (toward zero). *)
Definition truncate (x : double) : option Z :=
  match x with
  | S754_zero _ => Some 0
  | S754_finite s m e =>
      let a := Z.shiftl (Zpos m) e in
      Some (if s then - a else a)
  | S754_infinity _ | S754_nan => None
  end.

(** Implicit conversion [double -> int]. *)
Definition to_int (x : double) : result Z :=
  match truncate x with
  | Some z =>
      if (INT_MIN <=? z) && (z <=? INT_MAX) then Ok z
      else Undefined double_out_of_int_range
  | None => Undefined double_out_of_int_range
  end.

(** Implicit conversion of an integer ([int], [size_t]) to [double]. *)
Definition of_int (z : Z) : double := binary_normalize prec emax z 0 false.

End IEEE.
Export IEEE.

(** ** The GLM types and functions the source calls *)

Record dvec3 : Set := vec3 { vx : double; vy : double; vz : double }.
Record dvec4 : Set := vec4 { qx : double; qy : double; qz : double; qw : double }.
(** [glm::dquat(w, x, y, z)] *)
Record dquat : Set := quat { quat_w : double; quat_x : double; quat_y : double; quat_z : double }.
(** Column-major, as in GLM: [col0 m] is [m[0]]. *)
Record dmat4 : Set := mat4 { col0 : dvec4; col1 : dvec4; col2 : dvec4; col3 : dvec4 }.

Module glm.

Definition vadd (a b : dvec3) : dvec3 :=
  vec3 (add (vx a) (vx b)) (add (vy a) (vy b)) (add (vz a) (vz b)).

Definition vsub (a b : dvec3) : dvec3 :=
  vec3 (sub (vx a) (vx b)) (sub (vy a) (vy b)) (sub (vz a) (vz b)).

Definition vneg (a : dvec3) : dvec3 :=
  vec3 (neg (vx a)) (neg (vy a)) (neg (vz a)).

(** [v * s] *)
Definition vscale (a : dvec3) (s : double) : dvec3 :=
  vec3 (mul (vx a) s) (mul (vy a) s) (mul (vz a) s).

(** [glm::dot]: the products are summed left to right. *)
Definition dot (a b : dvec3) : double :=
  add (add (mul (vx a) (vx b)) (mul (vy a) (vy b))) (mul (vz a) (vz b)).

Definition length (a : dvec3) : double := sqrt (dot a a).

Definition inversesqrt (x : double) : double := div one (sqrt x).

Definition normalize (a : dvec3) : dvec3 := vscale a (inversesqrt (dot a a)).

Definition cross (x y : dvec3) : dvec3 :=
  vec3 (sub (mul (vy x) (vz y)) (mul (vy y) (vz x)))
       (sub (mul (vz x) (vx y)) (mul (vz y) (vx x)))
       (sub (mul (vx x) (vy y)) (mul (vx y) (vy x))).

(** [glm::dmat4(1.0)] *)
Definition identity : dmat4 :=
  mat4 (vec4 one zero zero zero) (vec4 zero one zero zero)
       (vec4 zero zero one zero) (vec4 zero zero zero one).

(** [glm::mat4_cast], that is [mat4(mat3_cast(q))]; the quaternion is not
    normalised. *)
Definition mat4_cast (q : dquat) : dmat4 :=
  let qxx := mul (quat_x q) (quat_x q) in
  let qyy := mul (quat_y q) (quat_y q) in
  let qzz := mul (quat_z q) (quat_z q) in
  let qxz := mul (quat_x q) (quat_z q) in
  let qxy := mul (quat_x q) (quat_y q) in
  let qyz := mul (quat_y q) (quat_z q) in
  let qwx := mul (quat_w q) (quat_x q) in
  let qwy := mul (quat_w q) (quat_y q) in
  let qwz := mul (quat_w q) (quat_z q) in
  mat4 (vec4 (sub one (mul two (add qyy qzz)))
             (mul two (add qxy qwz))
             (mul two (sub qxz qwy))
             zero)
       (vec4 (mul two (sub qxy qwz))
             (sub one (mul two (add qxx qzz)))
             (mul two (add qyz qwx))
             zero)
       (vec4 (mul two (add qxz qwy))
             (mul two (sub qyz qwx))
             (sub one (mul two (add qxx qyy)))
             zero)
       (vec4 zero zero zero one).

Definition vec4_eqb (a b : dvec4) : bool :=
  eqb (qx a) (qx b) && eqb (qy a) (qy b) && eqb (qz a) (qz b) && eqb (qw a) (qw b).

(** [operator==] on matrices: IEEE equality of every entry. *)
Definition mat4_eqb (a b : dmat4) : bool :=
  vec4_eqb (col0 a) (col0 b) && vec4_eqb (col1 a) (col1 b)
  && vec4_eqb (col2 a) (col2 b) && vec4_eqb (col3 a) (col3 b).

Definition vec3_eqb (a b : dvec3) : bool :=
  eqb (vx a) (vx b) && eqb (vy a) (vy b) && eqb (vz a) (vz b).

End glm.

(** ** What the source takes from headers that are not part of it *)

(** [<cmath>].  IEEE-754 does not fix the results of these functions; the
    laws are those of C11 Annex F (F.10.1.1, F.10.1.5, F.10.1.6): a NaN for an
    argument outside the domain or NaN, [acos(1) = +0], and a finite result
    for a finite argument of [cos] and [sin]. *)
Class Libm : Type := {
  acos : double -> double;
  cos : double -> double;
  sin : double -> double;
  acos_domain_error : forall x, ltb one (fabs x) = true -> acos x = nan;
  acos_one : acos one = zero;
  cos_nan : cos nan = nan;
  sin_nan : sin nan = nan;
  cos_finite : forall x, is_finite x = true -> is_finite (cos x) = true;
  sin_finite : forall x, is_finite x = true -> is_finite (sin x) = true
}.

(** GLM's [operator*] on [dmat4] and [glm::translate(m, v)], and
    [cloud_centroid] of [inc/math/linalg.h]. *)
Class Linalg : Type := {
  mat4_mul : dmat4 -> dmat4 -> dmat4;
  translate : dmat4 -> dvec3 -> dmat4;
  cloud_centroid : list dvec3 -> dvec3
}.

(** [inc/parameters.h]: the two constants of class [Parameters].  An integer
    [G_THRESH] is represented exactly by its double. *)
Class Parameters : Type := {
  N_BEST_PAIRS : Z;
  G_THRESH : double
}.

(** ** Data model *)

(** Modelled from the spec: [inc/graph/convexity.h] is not part of the
    source; the spec gives the enum as Convex, Concave, Flat/Saddle. *)
Inductive Convexity : Set := Convex | Concave | Flat.

Definition Convexity_eqb (a b : Convexity) : bool :=
  match a, b with
  | Convex, Convex | Concave, Concave | Flat, Flat => true
  | _, _ => false
  end.

(** [inc/graph/node.h]; the rendering colour is left out. *)
Record Node : Set := {
  pos : dvec3;
  curvature : dvec3;
  normal : dvec3;
  node_type : Convexity;
  ngbr : list (Z * Z)
}.

(** Modelled from the spec: class [Graph] is not part of the source; the
    mesh "exposes vertex lookup by index". *)
Definition Graph : Set := list Node.
Definition get_node (g : Graph) (i : Z) : result Node := at_index g i.

(** Modelled from the spec: [Patch] and [Descriptor] are declared in a header
    that is not part of the source; the fields are those [docker.cpp] reads. *)
Record Patch : Set := {
  get_pos : dvec3;
  get_normal : dvec3;
  nodes : list Z
}.

Record Descriptor : Set := {
  curv : double;
  type : Convexity
}.

Definition SurfaceDescriptors : Set := list (Patch * Descriptor).
Definition MatchingGroup : Set := list (Z * Z).

(** ** docker.cpp, internal functions *)

(** [static int geodesic_distance(int, int, const SurfaceDescriptors&)]:
    the [double] that [glm::length] returns is converted to the declared
    return type [int]. *)
Definition geodesic_distance (lhs_patch_ind rhs_patch_ind : Z)
    (desc : SurfaceDescriptors) : result Z :=
  lhs <- at_index desc lhs_patch_ind ;;
  rhs <- at_index desc rhs_patch_ind ;;
  let n1 := get_pos (fst lhs) in
  let n2 := get_pos (fst rhs) in
  to_int (glm.length (glm.vsub n1 n2)).

(** [lhs[i] != rhs[i]] is the negation of IEEE equality. *)
Definition comp_point (lhs rhs : dvec3) : bool :=
  if negb (eqb (vx lhs) (vx rhs)) then ltb (vx lhs) (vx rhs)
  else if negb (eqb (vy lhs) (vy rhs)) then ltb (vy lhs) (vy rhs)
  else if negb (eqb (vz lhs) (vz rhs)) then ltb (vz lhs) (vz rhs)
  else false.

(** [std::set<glm::dvec3, ...> cloud(comp_point)], held as the sequence its
    iteration yields.  [insert] leaves the set alone when it holds an element
    that neither precedes nor follows the new one. *)
Fixpoint set_insert (p : dvec3) (cloud : list dvec3) : list dvec3 :=
  match cloud with
  | [] => [p]
  | q :: rest =>
      if comp_point p q then p :: cloud
      else if comp_point q p then q :: set_insert p rest
      else cloud
  end.

(** The inner loop of [build_cloud_from_group], over [patch.nodes]. *)
Fixpoint insert_patch_nodes (target : Graph) (ps : list Z) (cloud : list dvec3)
    : result (list dvec3) :=
  match ps with
  | [] => Ok cloud
  | p :: rest =>
      n <- get_node target p ;;
      insert_patch_nodes target rest (set_insert (pos n) cloud)
  end.

(** The outer loop of [build_cloud_from_group], over [group]; the state is
    the set and the accumulated normal. *)
Fixpoint merge_group (group : list Z) (descriptors : SurfaceDescriptors)
    (target : Graph) (cloud : list dvec3) (avg_normal : dvec3)
    : result (list dvec3 * dvec3) :=
  match group with
  | [] => Ok (cloud, avg_normal)
  | desc_pair :: rest =>
      d <- at_index descriptors desc_pair ;;
      let patch := fst d in
      let avg_normal := glm.vadd avg_normal (get_normal patch) in
      cloud <- insert_patch_nodes target (nodes patch) cloud ;;
      merge_group rest descriptors target cloud avg_normal
  end.

(** Returns [(cloud_out, avg_normal)]. *)
Definition build_cloud_from_group (group : list Z)
    (descriptors : SurfaceDescriptors) (target : Graph)
    : result (list dvec3 * dvec3) :=
  '(cloud, avg_normal) <-
     merge_group group descriptors target [] (vec3 zero zero zero) ;;
  Ok (cloud,
      glm.normalize
        (glm.vscale avg_normal (div one (of_int (Z.of_nat (length group)))))).

(** ** Docker::build_matching_groups *)

Section BuildMatchingGroups.
Context {P : Parameters}.

(** Line 101. *)
Definition dissimilarity (t_patch l_patch : Patch * Descriptor) : double :=
  div (fabs (sub (curv (snd t_patch)) (curv (snd l_patch))))
      (max (curv (snd t_patch)) (curv (snd l_patch))).

(** Lines 95-104: the loop over the ligand patches from index [l] on. *)
Fixpoint similarity_list_from (t_patch : Patch * Descriptor) (l : Z)
    (ligand : list (Patch * Descriptor)) : list (double * Z) :=
  match ligand with
  | [] => []
  | l_patch :: rest =>
      if negb (Convexity_eqb (type (snd t_patch)) (type (snd l_patch)))
      then (dissimilarity t_patch l_patch, l)
             :: similarity_list_from t_patch (l + 1) rest
      else similarity_list_from t_patch (l + 1) rest
  end.

(** [operator<] of [std::pair<double,int>]. *)
Definition pair_lt (a b : double * Z) : bool :=
  ltb (fst a) (fst b) || (negb (ltb (fst b) (fst a)) && (snd a <? snd b)).

(** [std::sort] with [operator<].  C++ requires of the comparison a strict
    weak order on the entries sorted and leaves the call undefined otherwise.
    On entries with different indices and no NaN score [pair_lt] is a strict
    total order, so the sorted sequence is unique; it is computed here by
    straight insertion.  A NaN score among three or more entries can make
    [pair_lt] cyclic, as in [(inf,0) < (NaN,1) < (1,2) < (inf,0)]: there the
    list computed here stands for no outcome that C++ defines, and the
    statements on the ranked order are made under [strict_weak_on] or in
    the absence of NaN scores. *)
Fixpoint sort_insert (x : double * Z) (l : list (double * Z)) : list (double * Z) :=
  match l with
  | [] => [x]
  | y :: rest => if pair_lt x y then x :: l else y :: sort_insert x rest
  end.

Fixpoint std_sort (l : list (double * Z)) : list (double * Z) :=
  match l with
  | [] => []
  | x :: rest => sort_insert x (std_sort rest)
  end.

(** [v.erase(v.begin() + k, v.end())]: the range is valid only when
    [begin() + k] does not lie past [end()]. *)
Definition erase_from {A : Type} (k : Z) (v : list A) : result (list A) :=
  if (0 <=? k) && (k <=? Z.of_nat (length v)) then Ok (firstn (Z.to_nat k) v)
  else Undefined invalid_erase_range.

(** Lines 94-113: the candidates kept for one target patch. *)
Definition similarity_ranker (t_patch : Patch * Descriptor)
    (desc_ligand : SurfaceDescriptors) : result (list (double * Z)) :=
  let similarity_list := similarity_list_from t_patch 0 desc_ligand in
  let similarity_list := std_sort similarity_list in
  erase_from N_BEST_PAIRS similarity_list.

(** [d > Parameters::G_THRESH] for an [int] distance [d]. *)
Definition exceeds_G_THRESH (d : Z) : bool := ltb G_THRESH (of_int d).

Section Grouping.
Variables desc_target desc_ligand : SurfaceDescriptors.

(** Lines 128-132: every pair [member] of the group is visited, there is
    no early exit. *)
Fixpoint check_distances (cur_pair : Z * Z) (grp : MatchingGroup)
    (grouping_crit : bool) : result bool :=
  match grp with
  | [] => Ok grouping_crit
  | member :: rest =>
      dt <- geodesic_distance (fst cur_pair) (fst member) desc_target ;;
      let grouping_crit := if exceeds_G_THRESH dt then false else grouping_crit in
      dl <- geodesic_distance (snd cur_pair) (snd member) desc_ligand ;;
      let grouping_crit := if exceeds_G_THRESH dl then false else grouping_crit in
      check_distances cur_pair rest grouping_crit
  end.

(** Lines 123-140: the loop over [groups_out]; returns the groups and
    the flag [added]. *)
Fixpoint try_groups (cur_pair : Z * Z) (groups : list MatchingGroup)
    (added : bool) : result (list MatchingGroup * bool) :=
  match groups with
  | [] => Ok ([], added)
  | grp :: rest =>
      grouping_crit <- check_distances cur_pair grp true ;;
      let grp' := if grouping_crit then grp ++ [cur_pair] else grp in
      let added := if grouping_crit then true else added in
      '(rest', added) <- try_groups cur_pair rest added ;;
      Ok (grp' :: rest', added)
  end.

(** Lines 118-148: one candidate pair. *)
Definition place_pair (cur_pair : Z * Z) (groups_out : list MatchingGroup)
    : result (list MatchingGroup) :=
  '(groups_out, added) <- try_groups cur_pair groups_out false ;;
  if negb added then Ok (groups_out ++ [[cur_pair]]) else Ok groups_out.

(** Lines 116-149: the kept candidates of target patch [t], in order. *)
Fixpoint group_candidates (t : Z) (similarity_list : list (double * Z))
    (groups_out : list MatchingGroup) : result (list MatchingGroup) :=
  match similarity_list with
  | [] => Ok groups_out
  | lig :: rest =>
      groups_out <- place_pair (t, snd lig) groups_out ;;
      group_candidates t rest groups_out
  end.

(** Lines 86-150: target patches from index [t] on. *)
Fixpoint targets_from (t : Z) (targets : list (Patch * Descriptor))
    (groups_out : list MatchingGroup) : result (list MatchingGroup) :=
  match targets with
  | [] => Ok groups_out
  | t_patch :: rest =>
      similarity_list <- similarity_ranker t_patch desc_ligand ;;
      groups_out <- group_candidates t similarity_list groups_out ;;
      targets_from (t + 1) rest groups_out
  end.
End Grouping.

(** [groups_out] is passed by reference: the argument is its content on
    entry, the result its content on return. *)
Definition build_matching_groups (desc_target desc_ligand : SurfaceDescriptors)
    (groups_out : list MatchingGroup) : result (list MatchingGroup) :=
  targets_from desc_target desc_ligand 0 desc_target groups_out.

End BuildMatchingGroups.

(** ** Docker::transformations_from_matching_groups *)

Section Transformations.
Context {M : Libm} {L : Linalg}.

(** Line 199. *)
Definition rot_angle_of (ligand_normal target_normal : dvec3) : double :=
  div (add (acos (glm.dot ligand_normal target_normal)) pi) two.

(** Lines 197-207. *)
Definition align_normals_of (ligand_normal target_normal : dvec3) : dmat4 :=
  let rot_axle := glm.cross ligand_normal target_normal in
  let rot_angle := rot_angle_of ligand_normal target_normal in
  let rot_cos := cos rot_angle in
  let rot_sin := sin rot_angle in
  let quat_align_normals :=
    quat rot_cos (mul (vx rot_axle) rot_sin)
                 (mul (vy rot_axle) rot_sin)
                 (mul (vz rot_axle) rot_sin) in
  glm.mat4_cast quat_align_normals.

(** Lines 211-213. *)
Definition final_t_of (target_centroid ligand_centroid : dvec3)
    (align_normals : dmat4) : dmat4 :=
  mat4_mul (mat4_mul (translate glm.identity target_centroid) align_normals)
           (translate glm.identity (glm.vneg ligand_centroid)).

(** Lines 167-213: the body of the loop, for one matching group. *)
Definition group_transformation (MG : MatchingGroup)
    (target : Graph) (desc_target : SurfaceDescriptors)
    (ligand : Graph) (desc_ligand : SurfaceDescriptors) : result dmat4 :=
  let target_groups := map fst MG in
  let ligand_groups := map snd MG in
  '(target_cloud, target_normal) <-
     build_cloud_from_group target_groups desc_target target ;;
  '(ligand_cloud, ligand_normal) <-
     build_cloud_from_group ligand_groups desc_ligand ligand ;;
  let target_centroid := cloud_centroid target_cloud in
  let ligand_centroid := cloud_centroid ligand_cloud in
  Ok (final_t_of target_centroid ligand_centroid
        (align_normals_of ligand_normal target_normal)).

Fixpoint transformations_from_matching_groups
    (matching_groups : list MatchingGroup)
    (target : Graph) (desc_target : SurfaceDescriptors)
    (ligand : Graph) (desc_ligand : SurfaceDescriptors)
    (mg_transformation : list dmat4) : result (list dmat4) :=
  match matching_groups with
  | [] => Ok mg_transformation
  | MG :: rest =>
      final_t <- group_transformation MG target desc_target ligand desc_ligand ;;
      transformations_from_matching_groups rest target desc_target
        ligand desc_ligand (mg_transformation ++ [final_t])
  end.

End Transformations.

(** ** Vocabulary of the statements *)

(** *** Order of binary64 values

    Every value that is not NaN is sent to a triple of integers whose
    lexicographic order is the IEEE order; the two zeros share a triple. *)
Definition key (x : double) : Z * (Z * Z) :=
  match x with
  | S754_nan => (0, (0, 0))
  | S754_zero _ => (0, (0, 0))
  | S754_infinity true => (-2, (0, 0))
  | S754_infinity false => (2, (0, 0))
  | S754_finite true m e => (-1, (- e, Zneg m))
  | S754_finite false m e => (1, (e, Zpos m))
  end.

Definition lex (c d : comparison) : comparison :=
  match c with Eq => d | _ => c end.

Definition key_compare (a b : Z * (Z * Z)) : comparison :=
  lex (fst a ?= fst b)
      (lex (fst (snd a) ?= fst (snd b)) (snd (snd a) ?= snd (snd b))).

Definition key_lt (a b : Z * (Z * Z)) : Prop :=
  fst a < fst b \/
  (fst a = fst b /\
   (fst (snd a) < fst (snd b) \/
    (fst (snd a) = fst (snd b) /\ snd (snd a) < snd (snd b)))).

Definition vec3_no_nan (p : dvec3) : bool :=
  negb (is_nan (vx p)) && negb (is_nan (vy p)) && negb (is_nan (vz p)).

(** *** Matching groups *)

Section GroupVocabulary.
Context {P : Parameters}.
Variables desc_target desc_ligand : SurfaceDescriptors.

(** Both geodesic distances between [cur_pair] and [member] are defined
    and neither exceeds [G_THRESH]. *)
Definition close_to (cur_pair member : Z * Z) : Prop :=
  exists dt dl,
    geodesic_distance (fst cur_pair) (fst member) desc_target = Ok dt /\
    geodesic_distance (snd cur_pair) (snd member) desc_ligand = Ok dl /\
    exceeds_G_THRESH dt = false /\ exceeds_G_THRESH dl = false.

(** The grouping criterion: close to every pair already in the group. *)
Definition criterion (cur_pair : Z * Z) (grp : MatchingGroup) : Prop :=
  Forall (close_to cur_pair) grp.

(** Every member met the criterion against the members before it. *)
Definition inserted_pairwise (grp : MatchingGroup) : Prop :=
  forall prior cur_pair later,
    grp = prior ++ cur_pair :: later -> criterion cur_pair prior.

(** How a group answers for [cur_pair]: it receives the pair when the
    criterion holds and is left as it is otherwise. *)
Definition step_of (cur_pair : Z * Z) (grp grp' : MatchingGroup) : Prop :=
  (criterion cur_pair grp /\ grp' = grp ++ [cur_pair]) \/
  (~ criterion cur_pair grp /\ grp' = grp).

(** The pairs [(t, l)] for the candidates kept for target patch [t]. *)
Definition candidate_pairs (t : Z) (similarity_list : list (double * Z))
    : list (Z * Z) :=
  map (fun lig => (t, snd lig)) similarity_list.

(** The candidate pairs of consecutive target patches from index [t] on,
    given the candidates kept for each. *)
Fixpoint pairs_from (t : Z) (rankings : list (list (double * Z)))
    : list (Z * Z) :=
  match rankings with
  | [] => []
  | similarity_list :: rest =>
      candidate_pairs t similarity_list ++ pairs_from (t + 1) rest
  end.

(** Placing a sequence of pairs, one after the other. *)
Fixpoint place_all (pairs : list (Z * Z)) (groups_out : list MatchingGroup)
    : result (list MatchingGroup) :=
  match pairs with
  | [] => Ok groups_out
  | cur_pair :: rest =>
      groups_out <- place_pair desc_target desc_ligand cur_pair groups_out ;;
      place_all rest groups_out
  end.

(** Both indices of the pair name a patch. *)
Definition in_range (p : Z * Z) : Prop :=
  0 <= fst p < Z.of_nat (length desc_target) /\
  0 <= snd p < Z.of_nat (length desc_ligand).

End GroupVocabulary.

(** The distance between the positions of any two patches fits in [int]. *)
Definition positions_convertible (desc : SurfaceDescriptors) : Prop :=
  forall a b, In a desc -> In b desc ->
    exists d,
      to_int (glm.length (glm.vsub (get_pos (fst a)) (get_pos (fst b)))) = Ok d.

(** [new] keeps every group of [old] at its index, possibly with pairs
    appended behind the old ones. *)
Definition grows (old new : list MatchingGroup) : Prop :=
  forall i grp, nth_error old i = Some grp ->
    exists appended, nth_error new i = Some (grp ++ appended).

(** *** Ranking *)

(** Ascending by score; for equal scores, ascending by ligand index. *)
Definition ranked_before (a b : double * Z) : Prop :=
  ltb (fst a) (fst b) = true \/ (eqb (fst a) (fst b) = true /\ snd a < snd b).

(** The complementarity filter of line 99. *)
Definition eligible (t_patch l_patch : Patch * Descriptor) : bool :=
  negb (Convexity_eqb (type (snd t_patch)) (type (snd l_patch))).

(** Neither entry is before the other for [operator<]. *)
Definition incomparable (a b : double * Z) : bool :=
  negb (pair_lt a b) && negb (pair_lt b a).

(** What [std::sort] requires of [operator<] on the entries it is given: a
    strict weak order, that is, irreflexive, transitive, and with a
    transitive incomparability. *)
Definition strict_weak_on (l : list (double * Z)) : bool :=
  forallb (fun a =>
    negb (pair_lt a a) &&
    forallb (fun b => forallb (fun c =>
      implb (pair_lt a b && pair_lt b c) (pair_lt a c) &&
      implb (incomparable a b && incomparable b c) (incomparable a c)) l) l) l.

(** What [std::sort] promises of its result ([std::is_sorted]): no entry is
    before its predecessor. *)
Definition is_sorted (s : list (double * Z)) : Prop :=
  Sorted (fun a b => pair_lt b a = false) s.

(** [operator<] on the entries of [l]. *)
Definition lt_on (l : list (double * Z)) (a b : double * Z) : Prop :=
  In a l /\ In b l /\ pair_lt a b = true.

(** *** Clouds *)

(** [p] is the position of a node of a patch of the group. *)
Definition reachable (group : list Z) (descriptors : SurfaceDescriptors)
    (target : Graph) (p : dvec3) : Prop :=
  exists desc_pair d node_ind n,
    In desc_pair group /\ at_index descriptors desc_pair = Ok d /\
    In node_ind (nodes (fst d)) /\ get_node target node_ind = Ok n /\
    pos n = p.

(** The lexicographic order of the coordinates, and equality of all three,
    read on keys. *)
Definition point_lt (p q : dvec3) : Prop :=
  key_lt (key (vx p)) (key (vx q)) \/
  (key (vx p) = key (vx q) /\
   (key_lt (key (vy p)) (key (vy q)) \/
    (key (vy p) = key (vy q) /\ key_lt (key (vz p)) (key (vz q))))).

Definition point_eq (p q : dvec3) : Prop :=
  key (vx p) = key (vx q) /\ key (vy p) = key (vy q) /\ key (vz p) = key (vz q).

(** The positions of the nodes [ps] of the mesh, in order. *)
Fixpoint node_positions (target : Graph) (ps : list Z) : result (list dvec3) :=
  match ps with
  | [] => Ok []
  | p :: rest =>
      n <- get_node target p ;;
      pts <- node_positions target rest ;;
      Ok (pos n :: pts)
  end.

(** The positions that [build_cloud_from_group] inserts, in order. *)
Fixpoint group_positions (group : list Z) (descriptors : SurfaceDescriptors)
    (target : Graph) : result (list dvec3) :=
  match group with
  | [] => Ok []
  | desc_pair :: rest =>
      d <- at_index descriptors desc_pair ;;
      here <- node_positions target (nodes (fst d)) ;;
      later <- group_positions rest descriptors target ;;
      Ok (here ++ later)
  end.

(** The set after the insertion of [pts], in order. *)
Definition insert_all (pts : list dvec3) (cloud : list dvec3) : list dvec3 :=
  fold_left (fun c p => set_insert p c) pts cloud.

(** Each point precedes, for [comp_point], all the points behind it. *)
Definition strictly_sorted (cloud : list dvec3) : Prop :=
  StronglySorted (fun p q => comp_point p q = true) cloud.

(** No coordinate of a point of the cloud is NaN. *)
Definition points_ok (cloud : list dvec3) : Prop :=
  Forall (fun p => vec3_no_nan p = true) cloud.

(** The representative normals of the patches of the group, in order. *)
Fixpoint group_normals (group : list Z) (descriptors : SurfaceDescriptors)
    : result (list dvec3) :=
  match group with
  | [] => Ok []
  | desc_pair :: rest =>
      d <- at_index descriptors desc_pair ;;
      ns <- group_normals rest descriptors ;;
      Ok (get_normal (fst d) :: ns)
  end.

Definition sum_normals (ns : list dvec3) : dvec3 :=
  fold_left glm.vadd ns (vec3 zero zero zero).

(** The upper-left 3x3 block of a matrix holds only NaN. *)
Definition rotation_all_nan (m : dmat4) : bool :=
  is_nan (qx (col0 m)) && is_nan (qy (col0 m)) && is_nan (qz (col0 m))
  && is_nan (qx (col1 m)) && is_nan (qy (col1 m)) && is_nan (qz (col1 m))
  && is_nan (qx (col2 m)) && is_nan (qy (col2 m)) && is_nan (qz (col2 m)).

(** *** Transformations *)

Section TransformationVocabulary.
Context {M : Libm} {L : Linalg}.

(** [T] is the transformation the specification gives for the matching
    group [MG]. *)
Definition aligns (target : Graph) (desc_target : SurfaceDescriptors)
    (ligand : Graph) (desc_ligand : SurfaceDescriptors)
    (MG : MatchingGroup) (T : dmat4) : Prop :=
  exists target_cloud target_normal ligand_cloud ligand_normal,
    build_cloud_from_group (map fst MG) desc_target target
      = Ok (target_cloud, target_normal) /\
    build_cloud_from_group (map snd MG) desc_ligand ligand
      = Ok (ligand_cloud, ligand_normal) /\
    let axis := glm.cross ligand_normal target_normal in
    let angle :=
      div (add (acos (glm.dot ligand_normal target_normal)) pi) two in
    let R :=
      glm.mat4_cast
        (quat (cos angle) (mul (vx axis) (sin angle))
              (mul (vy axis) (sin angle)) (mul (vz axis) (sin angle))) in
    T = mat4_mul
          (mat4_mul (translate glm.identity (cloud_centroid target_cloud)) R)
          (translate glm.identity (glm.vneg (cloud_centroid ligand_cloud))).

End TransformationVocabulary.

(** *** Further vocabulary *)

(** Every coordinate is a finite number. *)
Definition vec3_finite (p : dvec3) : bool :=
  is_finite (vx p) && is_finite (vy p) && is_finite (vz p).

(** The value is a number other than zero. *)
Definition is_nonzero_finite (x : double) : bool :=
  match x with S754_finite _ _ _ => true | _ => false end.

(** The pair names a target patch and a ligand patch of different convexity
    classes. *)
Definition complementary (desc_target desc_ligand : SurfaceDescriptors)
    (p : Z * Z) : Prop :=
  exists t_patch l_patch,
    at_index desc_target (fst p) = Ok t_patch /\
    at_index desc_ligand (snd p) = Ok l_patch /\
    eligible t_patch l_patch = true.

(** Some group holds the pair. *)
Definition covered (p : Z * Z) (groups : list MatchingGroup) : Prop :=
  exists grp, In grp groups /\ In p grp.

(** ** Inputs on which the statements are exercised *)

(** A patch at [(x, 0, 0)] with normal [(0, 0, 1)]. *)
Definition patch_of (x c : double) (ty : Convexity) (ns : list Z)
    : Patch * Descriptor :=
  ({| get_pos := vec3 x zero zero;
      get_normal := vec3 zero zero one;
      nodes := ns |},
   {| curv := c; type := ty |}).

(** Three convex target patches at x = 0, 4, 2 and five ligand patches, of
    which the fourth is convex as well; [K = 2], [G_THRESH = 2.5]. *)
Definition sample_target : SurfaceDescriptors :=
  [ patch_of (lit 0 0) (lit 1 0) Convex [0; 1];
    patch_of (lit 4 0) (lit 2 0) Convex [1; 2];
    patch_of (lit 2 0) (lit 4 0) Convex [2] ].

Definition sample_ligand : SurfaceDescriptors :=
  [ patch_of (lit 0 0) (lit 1 0) Concave [0];
    patch_of (lit 4 0) (lit 2 0) Concave [0; 1];
    patch_of (lit 2 0) (lit 4 0) Concave [1];
    patch_of (lit 9 0) (lit 1 0) Convex [1];
    patch_of (lit 1 0) (lit 1 0) Flat [1] ].

Definition sample_parameters : Parameters :=
  {| N_BEST_PAIRS := 2; G_THRESH := lit 5 (-1) |}.

(** Two patches of complementary classes, both of curvature zero. *)
Definition flat_target : Patch * Descriptor := patch_of zero zero Convex [].
Definition flat_ligand : Patch * Descriptor := patch_of zero zero Concave [].

(** A concave patch of curvature one. *)
Definition curved_ligand : Patch * Descriptor := patch_of zero one Concave [].

(** Two patches whose positions are 1.5 apart. *)
Definition near_patches : SurfaceDescriptors :=
  [ patch_of zero zero Convex []; patch_of (lit 3 (-1)) zero Convex [] ].

(** A mesh of three vertices; the third lies where the first does. *)
Definition node_at (p : dvec3) : Node :=
  {| pos := p; curvature := vec3 zero zero zero;
     normal := vec3 zero zero one; node_type := Convex; ngbr := [] |}.

Definition sample_mesh : Graph :=
  [ node_at (vec3 zero zero zero);
    node_at (vec3 one zero zero);
    node_at (vec3 zero zero zero) ].

(** Two patches without nodes whose normals are opposite. *)
Definition opposed_patches : SurfaceDescriptors :=
  [ ({| get_pos := vec3 zero zero zero;
        get_normal := vec3 zero zero one; nodes := [] |},
     {| curv := one; type := Convex |});
    ({| get_pos := vec3 zero zero zero;
        get_normal := vec3 zero zero (neg one); nodes := [] |},
     {| curv := one; type := Convex |}) ].

(** One patch over the first vertex, with normal (1, 1, 1). *)
Definition diagonal_patch : SurfaceDescriptors :=
  [ ({| get_pos := vec3 zero zero zero;
        get_normal := vec3 one one one; nodes := [0] |},
     {| curv := one; type := Convex |}) ].

(** An instance of [Libm] that returns what the laws fix and is coarse
    elsewhere; the statements exercised on it do not depend on its values. *)
Definition coarse_acos (x : double) : double :=
  if is_nan x || ltb one (fabs x) then nan
  else if eqb x one then zero
  else div pi two.

Definition coarse_cos (x : double) : double :=
  if is_finite x then (if is_zero x then one else zero) else nan.

Definition coarse_sin (x : double) : double :=
  if is_finite x then (if is_zero x then x else one) else nan.

(** GLM 0.9's [operator*]: column [j] of the product is
    [a[0]*b[j][0] + a[1]*b[j][1] + a[2]*b[j][2] + a[3]*b[j][3]]. *)
Definition vec4_add (a b : dvec4) : dvec4 :=
  vec4 (add (qx a) (qx b)) (add (qy a) (qy b))
       (add (qz a) (qz b)) (add (qw a) (qw b)).

Definition vec4_scale (a : dvec4) (s : double) : dvec4 :=
  vec4 (mul (qx a) s) (mul (qy a) s) (mul (qz a) s) (mul (qw a) s).

Definition mat4_apply (a : dmat4) (b : dvec4) : dvec4 :=
  vec4_add (vec4_add (vec4_add (vec4_scale (col0 a) (qx b))
                               (vec4_scale (col1 a) (qy b)))
                     (vec4_scale (col2 a) (qz b)))
           (vec4_scale (col3 a) (qw b)).

Definition glm_mat4_mul (a b : dmat4) : dmat4 :=
  mat4 (mat4_apply a (col0 b)) (mat4_apply a (col1 b))
       (mat4_apply a (col2 b)) (mat4_apply a (col3 b)).

(** [Result[3] = m[0]*v[0] + m[1]*v[1] + m[2]*v[2] + m[3]]. *)
Definition glm_translate (m : dmat4) (v : dvec3) : dmat4 :=
  mat4 (col0 m) (col1 m) (col2 m)
       (vec4_add (vec4_add (vec4_add (vec4_scale (col0 m) (vx v))
                                     (vec4_scale (col1 m) (vy v)))
                           (vec4_scale (col2 m) (vz v)))
                 (col3 m)).

(** The arithmetic mean of the points. *)
Definition mean_centroid (cloud : list dvec3) : dvec3 :=
  glm.vscale (fold_left glm.vadd cloud (vec3 zero zero zero))
             (div one (of_int (Z.of_nat (length cloud)))).

Definition sample_linalg : Linalg :=
  {| mat4_mul := glm_mat4_mul;
     translate := glm_translate;
     cloud_centroid := mean_centroid |}.

(** The mesh of the ligand in the examples. *)
Definition sample_ligand_mesh : Graph :=
  [ node_at (vec3 two zero zero);
    node_at (vec3 (lit 3 0) zero zero);
    node_at (vec3 two one zero) ].

(** The groups that [build_matching_groups] returns for the sample. *)
Definition sample_groups : list MatchingGroup :=
  [ [(0, 0); (0, 4); (2, 2)]; [(1, 1); (2, 2); (2, 1)]; [(1, 0); (2, 2)] ].

(** * Properties *)

(** ** The laws of [Libm] have a model *)

Lemma coarse_cos_finite x : is_finite x = true -> is_finite (coarse_cos x) = true.
Proof.
  unfold coarse_cos. intros ->. destruct (is_zero x); reflexivity.
Qed.

Lemma coarse_sin_finite x : is_finite x = true -> is_finite (coarse_sin x) = true.
Proof.
  unfold coarse_sin. intros H. rewrite H. destruct (is_zero x); [exact H | reflexivity].
Qed.

Lemma coarse_acos_domain_error x :
  ltb one (fabs x) = true -> coarse_acos x = nan.
Proof.
  unfold coarse_acos. intros ->. now rewrite orb_true_r.
Qed.

Definition coarse_libm : Libm :=
  {| acos := coarse_acos;
     cos := coarse_cos;
     sin := coarse_sin;
     acos_domain_error := coarse_acos_domain_error;
     acos_one := eq_refl;
     cos_nan := eq_refl;
     sin_nan := eq_refl;
     cos_finite := coarse_cos_finite;
     sin_finite := coarse_sin_finite |}.

(** ** The outcome monad *)

Lemma bind_Ok_inv {A B : Type} (r : result A) (k : A -> result B) (b : B) :
  bind r k = Ok b -> exists a, r = Ok a /\ k a = Ok b.
Proof.
  destruct r as [a|f]; simpl; intros H; [eauto | discriminate].
Qed.

Ltac inv_bind H :=
  let a := fresh "a" in
  let Ha := fresh "Ha" in
  apply bind_Ok_inv in H; destruct H as (a & Ha & H).

Lemma at_index_Ok_In {A : Type} (v : list A) (i : Z) (a : A) :
  at_index v i = Ok a -> In a v.
Proof.
  unfold at_index. destruct (i <? 0); [discriminate|].
  destruct (nth_error v (Z.to_nat i)) eqn:E; [|discriminate].
  intros [= <-]. eapply nth_error_In; eassumption.
Qed.

Lemma at_index_of_nat {A : Type} (v : list A) (n : nat) :
  at_index v (Z.of_nat n) =
  match nth_error v n with
  | Some a => Ok a
  | None => Undefined index_out_of_range
  end.
Proof.
  unfold at_index. destruct (Z.ltb_spec (Z.of_nat n) 0); [lia|].
  now rewrite Nat2Z.id.
Qed.

(** ** Order of binary64 values *)

Lemma SFcompare_key (x y : double) :
  is_nan x = false -> is_nan y = false ->
  SFcompare x y = Some (key_compare (key x) (key y)).
Proof.
  destruct x as [sx|sx| |sx mx ex], y as [sy|sy| |sy my ey]; simpl;
    try discriminate; intros _ _;
    try destruct sx; try destruct sy; try reflexivity; unfold key_compare; simpl.
  - rewrite Z.compare_opp, (Z.compare_antisym ex ey).
    destruct (ex ?= ey); reflexivity.
  - destruct (ex ?= ey); reflexivity.
Qed.

Lemma key_compare_Lt a b : key_compare a b = Lt <-> key_lt a b.
Proof.
  unfold key_compare, key_lt, lex.
  destruct (Z.compare_spec (fst a) (fst b)),
    (Z.compare_spec (fst (snd a)) (fst (snd b))),
    (Z.compare_spec (snd (snd a)) (snd (snd b)));
    split; try discriminate; try reflexivity; lia.
Qed.

Lemma key_compare_Eq a b : key_compare a b = Eq <-> a = b.
Proof.
  unfold key_compare, lex. destruct a as [a1 [a2 a3]], b as [b1 [b2 b3]]; simpl.
  destruct (Z.compare_spec a1 b1), (Z.compare_spec a2 b2),
    (Z.compare_spec a3 b3); split; try discriminate; try reflexivity;
    try (intros; f_equal; [|f_equal]; lia); intros [= ]; lia.
Qed.

Lemma SFcompare_nan_l x y : is_nan x = true -> SFcompare x y = None.
Proof. destruct x; try discriminate; reflexivity. Qed.

Lemma SFcompare_nan_r x y : is_nan y = true -> SFcompare x y = None.
Proof. destruct y; try discriminate; destruct x; reflexivity. Qed.

Lemma double_ltb_spec (x y : double) :
  ltb x y = true <->
  is_nan x = false /\ is_nan y = false /\ key_lt (key x) (key y).
Proof.
  unfold ltb, SFltb.
  destruct (is_nan x) eqn:Hx;
    [rewrite SFcompare_nan_l by assumption; intuition discriminate|].
  destruct (is_nan y) eqn:Hy;
    [rewrite SFcompare_nan_r by assumption; intuition discriminate|].
  rewrite SFcompare_key by assumption. rewrite <- key_compare_Lt.
  destruct (key_compare (key x) (key y)); intuition discriminate.
Qed.

Lemma double_eqb_spec (x y : double) :
  eqb x y = true <-> is_nan x = false /\ is_nan y = false /\ key x = key y.
Proof.
  unfold eqb, SFeqb.
  destruct (is_nan x) eqn:Hx;
    [rewrite SFcompare_nan_l by assumption; intuition discriminate|].
  destruct (is_nan y) eqn:Hy;
    [rewrite SFcompare_nan_r by assumption; intuition discriminate|].
  rewrite SFcompare_key by assumption. rewrite <- key_compare_Eq.
  destruct (key_compare (key x) (key y)); intuition discriminate.
Qed.

Lemma key_lt_irrefl a : ~ key_lt a a.
Proof. unfold key_lt. lia. Qed.

Lemma key_lt_trans a b c : key_lt a b -> key_lt b c -> key_lt a c.
Proof. unfold key_lt. lia. Qed.

Lemma key_trichotomy a b : key_lt a b \/ a = b \/ key_lt b a.
Proof.
  unfold key_lt. destruct a as [a1 [a2 a3]], b as [b1 [b2 b3]]; simpl.
  destruct (Z.lt_trichotomy a1 b1) as [?|[?|?]]; [lia| |lia].
  destruct (Z.lt_trichotomy a2 b2) as [?|[?|?]]; [lia| |lia].
  destruct (Z.lt_trichotomy a3 b3) as [?|[?|?]]; [lia| |lia].
  right; left; congruence.
Qed.

Lemma double_ltb_irrefl x : ltb x x = false.
Proof.
  destruct (ltb x x) eqn:E; [|reflexivity].
  apply double_ltb_spec in E. destruct E as (_ & _ & E).
  now apply key_lt_irrefl in E.
Qed.

Lemma double_ltb_trans x y z :
  ltb x y = true -> ltb y z = true -> ltb x z = true.
Proof.
  rewrite !double_ltb_spec. intros (? & ? & ?) (? & ? & ?).
  eauto using key_lt_trans.
Qed.

Lemma double_ltb_asym x y : ltb x y = true -> ltb y x = false.
Proof.
  intros H. destruct (ltb y x) eqn:E; [|reflexivity].
  pose proof (double_ltb_trans _ _ _ H E) as C.
  now rewrite double_ltb_irrefl in C.
Qed.

Lemma double_ltb_total x y :
  is_nan x = false -> is_nan y = false ->
  ltb x y = true \/ eqb x y = true \/ ltb y x = true.
Proof.
  intros Hx Hy. rewrite !double_ltb_spec, double_eqb_spec.
  destruct (key_trichotomy (key x) (key y)) as [?|[?|?]]; intuition.
Qed.

Lemma double_eqb_not_ltb x y :
  eqb x y = true -> ltb x y = false /\ ltb y x = false.
Proof.
  rewrite double_eqb_spec. intros (Hx & Hy & E).
  split; match goal with |- ?b = false => destruct b eqn:F; [|reflexivity] end;
  apply double_ltb_spec in F; destruct F as (_ & _ & F); rewrite E in F;
  now apply key_lt_irrefl in F.
Qed.

Lemma double_eqb_sym x y : eqb x y = true -> eqb y x = true.
Proof. rewrite !double_eqb_spec. intuition. Qed.

Lemma double_eqb_trans x y z :
  eqb x y = true -> eqb y z = true -> eqb x z = true.
Proof. rewrite !double_eqb_spec. intuition congruence. Qed.

Lemma double_eqb_refl x : is_nan x = false -> eqb x x = true.
Proof. rewrite double_eqb_spec. intuition. Qed.

Lemma double_eqb_ltb x y z :
  eqb x y = true -> ltb y z = true -> ltb x z = true.
Proof.
  rewrite double_eqb_spec, !double_ltb_spec.
  intros (? & ? & E) (? & ? & ?). rewrite E. intuition.
Qed.

Lemma double_ltb_eqb x y z :
  ltb x y = true -> eqb y z = true -> ltb x z = true.
Proof.
  rewrite double_eqb_spec, !double_ltb_spec.
  intros (? & ? & ?) (? & ? & E). rewrite <- E. intuition.
Qed.

(** ** Conversion of integers, and the threshold test *)

Lemma shr_1_nonneg mrs : 0 <= shr_m mrs -> 0 <= shr_m (shr_1 mrs).
Proof.
  destruct mrs as [m r s]. simpl.
  destruct m as [|p|p]; [simpl; lia| |lia].
  intros _. destruct p; simpl; lia.
Qed.

Lemma iter_pos_shr_1_nonneg n :
  forall mrs, 0 <= shr_m mrs -> 0 <= shr_m (iter_pos shr_1 n mrs).
Proof.
  induction n as [n IH|n IH|]; simpl; intros mrs H.
  - apply IH, IH, shr_1_nonneg, H.
  - apply IH, IH, H.
  - apply shr_1_nonneg, H.
Qed.

Lemma shr_fexp_nonneg m e l :
  0 <= m -> 0 <= shr_m (fst (shr_fexp prec emax m e l)).
Proof.
  intros H. unfold shr_fexp, shr.
  assert (H0 : 0 <= shr_m (shr_record_of_loc m l)).
  { destruct l as [|[]]; simpl; assumption. }
  destruct (fexp prec emax (Zdigits2 m + e) - e); simpl;
    [assumption | now apply iter_pos_shr_1_nonneg | assumption].
Qed.

Lemma round_nearest_even_nonneg m l : 0 <= m -> 0 <= round_nearest_even m l.
Proof.
  intros H. destruct l as [|[]]; simpl; try lia.
  destruct (Z.even m); lia.
Qed.

Lemma binary_round_aux_not_nan sx mx ex lx :
  0 <= mx -> is_nan (binary_round_aux prec emax sx mx ex lx) = false.
Proof.
  intros H. unfold binary_round_aux.
  pose proof (shr_fexp_nonneg mx ex lx H) as H1.
  destruct (shr_fexp prec emax mx ex lx) as [mrs' e']. simpl in H1.
  pose proof (shr_fexp_nonneg
                (round_nearest_even (shr_m mrs') (loc_of_shr_record mrs'))
                e' loc_Exact (round_nearest_even_nonneg _ _ H1)) as H2.
  destruct (shr_fexp prec emax _ e' loc_Exact) as [mrs'' e'']. simpl in H2.
  destruct (shr_m mrs'') as [|p|p]; [reflexivity| |lia].
  destruct (e'' <=? emax - prec); reflexivity.
Qed.

Lemma of_int_not_nan z : is_nan (of_int z) = false.
Proof.
  unfold of_int, binary_normalize, binary_round.
  destruct z as [|p|p]; [reflexivity| |];
    destruct (shl_align p 0 _) as [mz ez];
    apply binary_round_aux_not_nan; lia.
Qed.

Lemma double_leb_spec x y :
  leb x y = true <->
  is_nan x = false /\ is_nan y = false /\ ~ key_lt (key y) (key x).
Proof.
  unfold leb, SFleb.
  destruct (is_nan x) eqn:Hx;
    [rewrite SFcompare_nan_l by assumption; intuition discriminate|].
  destruct (is_nan y) eqn:Hy;
    [rewrite SFcompare_nan_r by assumption; intuition discriminate|].
  rewrite SFcompare_key by assumption.
  destruct (key_compare (key x) (key y)) eqn:E.
  - apply key_compare_Eq in E. rewrite E.
    intuition. eapply key_lt_irrefl; eassumption.
  - apply key_compare_Lt in E.
    intuition. eapply key_lt_irrefl, key_lt_trans; eassumption.
  - assert (H : key_lt (key y) (key x)).
    { destruct (key_trichotomy (key x) (key y)) as [H|[H|H]]; [| |exact H].
      - apply key_compare_Lt in H. congruence.
      - apply key_compare_Eq in H. congruence. }
    intuition discriminate.
Qed.

(** For a threshold that is a number, [d > G_THRESH] fails exactly when
    [d <= G_THRESH]. *)
Lemma exceeds_G_THRESH_leb {P : Parameters} d :
  is_nan G_THRESH = false ->
  (exceeds_G_THRESH d = false <-> leb (of_int d) G_THRESH = true).
Proof.
  intros HG. unfold exceeds_G_THRESH.
  rewrite double_leb_spec.
  pose proof (of_int_not_nan d) as Hd.
  destruct (ltb G_THRESH (of_int d)) eqn:E.
  - apply double_ltb_spec in E. destruct E as (_ & _ & E).
    split; [discriminate|]. intros (_ & _ & H). contradiction.
  - split; [|reflexivity]. intros _. repeat split; try assumption.
    intros H.
    assert (ltb G_THRESH (of_int d) = true) by (apply double_ltb_spec; auto).
    congruence.
Qed.

(** ** The Group Builder *)

Section GroupBuilder.
Context {P : Parameters}.
Variables desc_target desc_ligand : SurfaceDescriptors.

Local Abbreviation criterion := (criterion desc_target desc_ligand).
Local Abbreviation close_to := (close_to desc_target desc_ligand).
Local Abbreviation check_distances := (check_distances desc_target desc_ligand).
Local Abbreviation try_groups := (try_groups desc_target desc_ligand).
Local Abbreviation place_pair := (place_pair desc_target desc_ligand).
Local Abbreviation group_candidates := (group_candidates desc_target desc_ligand).
Local Abbreviation inserted_pairwise := (inserted_pairwise desc_target desc_ligand).
Local Abbreviation step_of := (step_of desc_target desc_ligand).

Lemma check_distances_spec cur_pair grp :
  forall c b, check_distances cur_pair grp c = Ok b ->
    (b = true <-> c = true /\ criterion cur_pair grp).
Proof.
  induction grp as [|member rest IH]; simpl; intros c b H.
  - injection H as <-. unfold criterion. intuition.
  - inv_bind H. inv_bind H. apply IH in H. rewrite H. clear H IH.
    unfold criterion.
    split.
    + intros [Hc Hrest].
      destruct (exceeds_G_THRESH a) eqn:Et; [destruct (exceeds_G_THRESH a0); discriminate|].
      destruct (exceeds_G_THRESH a0) eqn:El; [discriminate|].
      split; [assumption|]. constructor; [|assumption].
      exists a, a0. auto.
    + intros [Hc Hall]. inversion Hall as [|? ? (dt & dl & Hdt & Hdl & Et & El) Hrest]; subst.
      rewrite Ha in Hdt. rewrite Ha0 in Hdl.
      injection Hdt as <-. injection Hdl as <-.
      rewrite Et, El. auto.
Qed.

Lemma try_groups_spec cur_pair groups :
  forall added groups' added',
    try_groups cur_pair groups added = Ok (groups', added') ->
    Forall2 (step_of cur_pair) groups groups' /\
    (added' = true <-> added = true \/ Exists (criterion cur_pair) groups).
Proof.
  induction groups as [|grp rest IH]; simpl; intros added groups' added' H.
  - injection H as <- <-. split; [constructor|].
    split; [auto|]. intros [?|HE]; [assumption|inversion HE].
  - inv_bind H. inv_bind H. destruct a0 as [rest' added0].
    injection H as <- <-.
    apply check_distances_spec in Ha.
    apply IH in Ha0. destruct Ha0 as [HF Hadd].
    split.
    + constructor; [|assumption]. unfold step_of.
      destruct a.
      * left. split; [apply Ha; reflexivity | reflexivity].
      * right. split; [|reflexivity]. intros Hc.
        assert (false = true) by (apply Ha; auto). discriminate.
    + rewrite Hadd. destruct a.
      * assert (criterion cur_pair grp) by (apply Ha; reflexivity).
        intuition.
      * assert (~ criterion cur_pair grp).
        { intros Hc. assert (false = true) by (apply Ha; auto). discriminate. }
        split.
        -- intros [?|?]; [auto|]. right. now apply Exists_cons_tl.
        -- intros [?|HE]; [auto|]. inversion HE; subst; [contradiction|auto].
Qed.

Lemma place_pair_spec cur_pair groups groups' :
  place_pair cur_pair groups = Ok groups' ->
  exists stepped,
    Forall2 (step_of cur_pair) groups stepped /\
    ((Exists (criterion cur_pair) groups /\ groups' = stepped) \/
     (~ Exists (criterion cur_pair) groups /\
      groups' = groups ++ [[cur_pair]])).
Proof.
  unfold place_pair. intros H. inv_bind H.
  destruct a as [stepped added].
  apply try_groups_spec in Ha. destruct Ha as [HF Hadd].
  exists stepped. split; [assumption|].
  destruct added; simpl in H; injection H as <-.
  - left. split; [|reflexivity].
    destruct Hadd as [Hadd _]. destruct (Hadd eq_refl); [discriminate|assumption].
  - right.
    assert (HnE : ~ Exists (criterion cur_pair) groups).
    { intros HE. assert (false = true) by (apply Hadd; auto). discriminate. }
    split; [assumption|]. f_equal.
    clear -HF HnE. induction HF as [|g g' gs gs' Hs HF IH]; [reflexivity|].
    destruct Hs as [[Hc _]|[_ ->]].
    + exfalso. apply HnE. now constructor.
    + f_equal. apply IH. intros HE. apply HnE. now apply Exists_cons_tl.
Qed.

(** *** The insertion invariant *)

Lemma inserted_pairwise_singleton cur_pair : inserted_pairwise [cur_pair].
Proof.
  intros prior c later E.
  destruct prior as [|x prior]; [constructor|].
  destruct prior; discriminate.
Qed.

Lemma inserted_pairwise_snoc grp cur_pair :
  inserted_pairwise grp -> criterion cur_pair grp ->
  inserted_pairwise (grp ++ [cur_pair]).
Proof.
  intros Hg Hc prior c later E.
  destruct later as [|x later] using rev_ind.
  - apply app_inj_tail in E. destruct E as [-> ->]. assumption.
  - clear IHlater. rewrite app_comm_cons, app_assoc in E.
    apply app_inj_tail in E. destruct E as [E _].
    eapply Hg; eassumption.
Qed.

Lemma step_of_inserted_pairwise cur_pair grp grp' :
  step_of cur_pair grp grp' -> inserted_pairwise grp -> inserted_pairwise grp'.
Proof.
  intros [[Hc ->]|[_ ->]] Hg; [now apply inserted_pairwise_snoc | assumption].
Qed.

Lemma Forall2_step_of_inserted cur_pair groups stepped :
  Forall2 (step_of cur_pair) groups stepped ->
  Forall inserted_pairwise groups -> Forall inserted_pairwise stepped.
Proof.
  induction 1 as [|g g' gs gs' Hs HF IH]; intros HA; [constructor|].
  inversion HA; subst.
  constructor; [eapply step_of_inserted_pairwise; eassumption | auto].
Qed.

Lemma place_pair_inserted cur_pair groups groups' :
  place_pair cur_pair groups = Ok groups' ->
  Forall inserted_pairwise groups -> Forall inserted_pairwise groups'.
Proof.
  intros H HA. apply place_pair_spec in H.
  destruct H as (stepped & HF & [[_ ->]|[_ ->]]).
  - eapply Forall2_step_of_inserted; eassumption.
  - apply Forall_app. split; [assumption|].
    constructor; [apply inserted_pairwise_singleton | constructor].
Qed.

Lemma group_candidates_inserted t similarity_list :
  forall groups groups',
    group_candidates t similarity_list groups = Ok groups' ->
    Forall inserted_pairwise groups -> Forall inserted_pairwise groups'.
Proof.
  induction similarity_list as [|lig rest IH]; simpl; intros groups groups' H HA.
  - now injection H as <-.
  - inv_bind H. eapply IH; [eassumption|].
    eapply place_pair_inserted; eassumption.
Qed.

Lemma targets_from_inserted targets :
  forall t groups groups',
    targets_from desc_target desc_ligand t targets groups = Ok groups' ->
    Forall inserted_pairwise groups -> Forall inserted_pairwise groups'.
Proof.
  induction targets as [|t_patch rest IH]; simpl; intros t groups groups' H HA.
  - now injection H as <-.
  - inv_bind H. inv_bind H. eapply IH; [eassumption|].
    eapply group_candidates_inserted; eassumption.
Qed.

(** *** Groups are only appended to *)

Lemma grows_refl groups : grows groups groups.
Proof. intros i grp H. exists []. now rewrite app_nil_r. Qed.

Lemma grows_trans g1 g2 g3 : grows g1 g2 -> grows g2 g3 -> grows g1 g3.
Proof.
  intros H12 H23 i grp H.
  destruct (H12 _ _ H) as (e1 & H1). destruct (H23 _ _ H1) as (e2 & H2).
  exists (e1 ++ e2). now rewrite app_assoc.
Qed.

Lemma Forall2_step_of_grows cur_pair groups stepped :
  Forall2 (step_of cur_pair) groups stepped -> grows groups stepped.
Proof.
  induction 1 as [|g g' gs gs' Hs HF IH]; intros i grp H.
  - destruct i; discriminate.
  - destruct i as [|i]; simpl in *.
    + injection H as <-.
      destruct Hs as [[_ ->]|[_ ->]]; [exists [cur_pair] | exists []];
        now rewrite ?app_nil_r.
    + now apply IH.
Qed.

Lemma grows_app groups extra : grows groups (groups ++ extra).
Proof.
  intros i grp H. exists []. rewrite app_nil_r.
  rewrite nth_error_app1; [assumption|].
  apply nth_error_Some. congruence.
Qed.

Lemma place_pair_grows cur_pair groups groups' :
  place_pair cur_pair groups = Ok groups' -> grows groups groups'.
Proof.
  intros H. apply place_pair_spec in H.
  destruct H as (stepped & HF & [[_ ->]|[_ ->]]).
  - eapply Forall2_step_of_grows; eassumption.
  - apply grows_app.
Qed.

Lemma group_candidates_grows t similarity_list :
  forall groups groups',
    group_candidates t similarity_list groups = Ok groups' ->
    grows groups groups'.
Proof.
  induction similarity_list as [|lig rest IH]; simpl; intros groups groups' H.
  - injection H as <-. apply grows_refl.
  - inv_bind H. eapply grows_trans; [eapply place_pair_grows; eassumption|].
    now apply IH.
Qed.

Lemma targets_from_grows targets :
  forall t groups groups',
    targets_from desc_target desc_ligand t targets groups = Ok groups' ->
    grows groups groups'.
Proof.
  induction targets as [|t_patch rest IH]; simpl; intros t groups groups' H.
  - injection H as <-. apply grows_refl.
  - inv_bind H. inv_bind H.
    eapply grows_trans; [eapply group_candidates_grows; eassumption|].
    eapply IH; eassumption.
Qed.
End GroupBuilder.

(** ** The Similarity Ranker *)

Lemma sort_insert_perm x l : Permutation (sort_insert x l) (x :: l).
Proof.
  induction l as [|y rest IH]; simpl; [reflexivity|].
  destruct (pair_lt x y); [reflexivity|].
  rewrite IH. apply perm_swap.
Qed.

Lemma std_sort_perm l : Permutation (std_sort l) l.
Proof.
  induction l as [|x rest IH]; simpl; [reflexivity|].
  rewrite sort_insert_perm. now constructor.
Qed.

Lemma std_sort_length l : length (std_sort l) = length l.
Proof. apply Permutation_length, std_sort_perm. Qed.

Lemma similarity_list_from_In t_patch ligand :
  forall l e,
    In e (similarity_list_from t_patch l ligand) <->
    exists n l_patch,
      nth_error ligand n = Some l_patch /\ eligible t_patch l_patch = true /\
      e = (dissimilarity t_patch l_patch, l + Z.of_nat n).
Proof.
  unfold eligible.
  induction ligand as [|l_patch rest IH]; simpl; intros l e.
  - split; [contradiction|]. intros (n & lp & H & _). destruct n; discriminate.
  - assert (Hrest : In e (similarity_list_from t_patch (l + 1) rest) <->
      exists n lp, nth_error (l_patch :: rest) (S n) = Some lp /\
        negb (Convexity_eqb (type (snd t_patch)) (type (snd lp))) = true /\
        e = (dissimilarity t_patch lp, l + Z.of_nat (S n))).
    { rewrite IH. split; intros (n & lp & H1 & H2 & H3); exists n, lp;
        (split; [exact H1|split; [exact H2|]]); rewrite H3; f_equal; lia. }
    destruct (negb (Convexity_eqb (type (snd t_patch)) (type (snd l_patch)))) eqn:E.
    + simpl. rewrite Hrest. split.
      * intros [<-|(n & lp & H)]; [|exists (S n), lp; exact H].
        exists 0%nat, l_patch. simpl. rewrite E. repeat split. f_equal. lia.
      * intros ([|n] & lp & H1 & H2 & H3).
        -- left. injection H1 as <-. rewrite H3. f_equal. simpl. lia.
        -- right. exists n, lp. auto.
    + rewrite Hrest. split.
      * intros (n & lp & H); exists (S n), lp; exact H.
      * intros ([|n] & lp & H1 & H2 & H3).
        -- injection H1 as <-. rewrite E in H2. discriminate.
        -- exists n, lp. auto.
Qed.

Lemma similarity_list_from_increasing t_patch ligand :
  forall l,
    StronglySorted (fun a b => snd a < snd b) (similarity_list_from t_patch l ligand) /\
    Forall (fun e => l <= snd e) (similarity_list_from t_patch l ligand).
Proof.
  induction ligand as [|l_patch rest IH]; simpl; intros l.
  - split; constructor.
  - destruct (IH (l + 1)) as [HS HF].
    assert (HF' : Forall (fun e => l + 1 <= snd e) (similarity_list_from t_patch (l + 1) rest)) by assumption.
    destruct (negb _).
    + split.
      * constructor; [assumption|].
        eapply Forall_impl; [|exact HF]. simpl. intros; lia.
      * constructor; [simpl; lia|].
        eapply Forall_impl; [|exact HF]. simpl. intros; lia.
    + split; [assumption|].
      eapply Forall_impl; [|exact HF]. simpl. intros; lia.
Qed.

Lemma pair_lt_ranked a b :
  is_nan (fst a) = false -> is_nan (fst b) = false ->
  (pair_lt a b = true <-> ranked_before a b).
Proof.
  intros Ha Hb. unfold pair_lt, ranked_before.
  rewrite orb_true_iff, andb_true_iff, negb_true_iff, Z.ltb_lt.
  split.
  - intros [H|[H1 H2]]; [auto|].
    destruct (double_ltb_total _ _ Ha Hb) as [H|[H|H]]; [auto|auto|congruence].
  - intros [H|[H1 H2]]; [auto|].
    right. split; [|assumption]. now apply double_eqb_not_ltb in H1.
Qed.

Lemma ranked_before_trans a b c :
  ranked_before a b -> ranked_before b c -> ranked_before a c.
Proof.
  unfold ranked_before. intros [H1|[H1 H1']] [H2|[H2 H2']].
  - left. eapply double_ltb_trans; eassumption.
  - left. eapply double_ltb_eqb; eassumption.
  - left. eapply double_eqb_ltb; eassumption.
  - right. split; [eapply double_eqb_trans; eassumption | lia].
Qed.

Lemma ranked_before_total a b :
  is_nan (fst a) = false -> is_nan (fst b) = false -> snd a <> snd b ->
  ranked_before a b \/ ranked_before b a.
Proof.
  intros Ha Hb Hne. unfold ranked_before.
  destruct (double_ltb_total _ _ Ha Hb) as [H|[H|H]]; [auto| |auto].
  destruct (Z.lt_trichotomy (snd a) (snd b)) as [?|[?|?]]; [auto|contradiction|].
  right. right. split; [now apply double_eqb_sym | assumption].
Qed.

Lemma sort_insert_sorted x l :
  is_nan (fst x) = false ->
  Forall (fun e => is_nan (fst e) = false) l ->
  ~ In (snd x) (map snd l) ->
  StronglySorted ranked_before l ->
  StronglySorted ranked_before (sort_insert x l).
Proof.
  intros Hx Hnan Hnew HS.
  induction HS as [|y rest HS IH Hy]; simpl.
  - repeat constructor.
  - inversion Hnan as [|? ? Hyn Hrn]; subst.
    destruct (pair_lt x y) eqn:E.
    + apply pair_lt_ranked in E; [|assumption|assumption].
      constructor; [constructor; assumption|].
      constructor; [assumption|].
      eapply Forall_impl; [|exact Hy]. intros z Hz.
      eapply ranked_before_trans; eassumption.
    + assert (Hyx : ranked_before y x).
      { destruct (ranked_before_total x y Hx Hyn) as [H|H].
        - intros Heq. apply Hnew. simpl. auto.
        - apply pair_lt_ranked in H; [congruence|assumption|assumption].
        - assumption. }
      constructor.
      * apply IH; [assumption|]. intros Hin. apply Hnew. simpl. auto.
      * eapply Permutation_Forall; [symmetry; apply sort_insert_perm|].
        constructor; assumption.
Qed.

Lemma std_sort_sorted l :
  Forall (fun e => is_nan (fst e) = false) l -> NoDup (map snd l) ->
  StronglySorted ranked_before (std_sort l).
Proof.
  induction l as [|x rest IH]; simpl; intros Hnan Hnd; [constructor|].
  inversion Hnan; subst. inversion Hnd; subst.
  apply sort_insert_sorted; auto.
  - eapply Permutation_Forall; [symmetry; apply std_sort_perm | assumption].
  - intros Hin. match goal with H : ~ In _ _ |- _ => apply H end.
    eapply Permutation_in; [|exact Hin].
    apply Permutation_map, std_sort_perm.
Qed.

Lemma StronglySorted_app_inv {A : Type} (R : A -> A -> Prop) (l1 l2 : list A) :
  StronglySorted R (l1 ++ l2) ->
  StronglySorted R l1 /\ StronglySorted R l2 /\
  Forall (fun b => Forall (fun a => R a b) l1) l2.
Proof.
  induction l1 as [|x l1 IH]; simpl; intros H.
  - repeat split; [constructor|assumption|].
    apply Forall_forall. intros; constructor.
  - inversion H as [|? ? HS HF]; subst.
    destruct (IH HS) as (H1 & H2 & H3).
    apply Forall_app in HF. destruct HF as [HF1 HF2].
    repeat split; [constructor; assumption|assumption|].
    rewrite Forall_forall in *. intros b Hb.
    constructor; [apply HF2, Hb | apply H3, Hb].
Qed.

Lemma increasing_NoDup (l : list (double * Z)) :
  StronglySorted (fun a b => snd a < snd b) l -> NoDup (map snd l).
Proof.
  induction 1 as [|x l HS IH HF]; simpl; constructor; [|assumption].
  intros Hin. apply in_map_iff in Hin. destruct Hin as (y & Hy & Hin).
  rewrite Forall_forall in HF. specialize (HF _ Hin). lia.
Qed.

(** *** The sorted sequence where [operator<] is a strict weak order *)

Lemma pair_lt_irrefl a : pair_lt a a = false.
Proof.
  unfold pair_lt. now rewrite double_ltb_irrefl, Z.ltb_irrefl.
Qed.

Lemma pair_lt_asym a b : pair_lt a b = true -> pair_lt b a = false.
Proof.
  unfold pair_lt. intros H.
  apply orb_true_iff in H. destruct H as [H|H].
  - rewrite (double_ltb_asym _ _ H), H. reflexivity.
  - apply andb_true_iff in H. destruct H as [H1 H2].
    apply negb_true_iff in H1. rewrite H1. simpl.
    apply Z.ltb_lt in H2.
    destruct (ltb (fst a) (fst b)); simpl; [reflexivity|].
    apply Z.ltb_ge. lia.
Qed.

(** Entries of different indices are always comparable, NaN or not. *)
Lemma pair_lt_total a b :
  snd a <> snd b -> pair_lt a b = true \/ pair_lt b a = true.
Proof.
  unfold pair_lt. intros Hne.
  destruct (ltb (fst a) (fst b)); [now left|].
  destruct (ltb (fst b) (fst a)); [now right|]. simpl.
  destruct (Z.lt_trichotomy (snd a) (snd b)) as [H|[H|H]]; [|contradiction|].
  - left. now apply Z.ltb_lt.
  - right. now apply Z.ltb_lt.
Qed.

Lemma strict_weak_on_trans l a b c :
  strict_weak_on l = true -> In a l -> In b l -> In c l ->
  pair_lt a b = true -> pair_lt b c = true -> pair_lt a c = true.
Proof.
  unfold strict_weak_on. intros H Ha Hb Hc Hab Hbc.
  rewrite forallb_forall in H. specialize (H a Ha).
  apply andb_true_iff in H. destruct H as [_ H].
  rewrite forallb_forall in H. specialize (H b Hb).
  rewrite forallb_forall in H. specialize (H c Hc).
  apply andb_true_iff in H. destruct H as [H _].
  rewrite Hab, Hbc in H. exact H.
Qed.

Lemma lt_on_trans l :
  strict_weak_on l = true -> Relations_1.Transitive (lt_on l).
Proof.
  unfold Relations_1.Transitive.
  intros H a b c (Ha & Hb & Hab) (_ & Hc & Hbc).
  split; [assumption|split; [assumption|]].
  exact (strict_weak_on_trans l a b c H Ha Hb Hc Hab Hbc).
Qed.

Lemma sort_insert_lt_on l x rest :
  strict_weak_on l = true -> In x l -> incl rest l ->
  ~ In (snd x) (map snd rest) ->
  StronglySorted (lt_on l) rest ->
  StronglySorted (lt_on l) (sort_insert x rest).
Proof.
  intros Hl Hx Hincl Hnew HS.
  induction HS as [|y rest HS IH Hy]; simpl.
  - repeat constructor.
  - assert (Hyl : In y l) by (apply Hincl; now left).
    destruct (pair_lt x y) eqn:E.
    + constructor; [constructor; assumption|].
      constructor; [now repeat split|].
      eapply Forall_impl; [|exact Hy]. intros z Hz.
      eapply (lt_on_trans l Hl); [|exact Hz]. now repeat split.
    + assert (Hyx : pair_lt y x = true).
      { destruct (pair_lt_total x y) as [H|H]; [|congruence|assumption].
        intros Heq. apply Hnew. simpl. auto. }
      constructor.
      * apply IH; [intros z Hz; apply Hincl; now right|].
        intros Hin. apply Hnew. simpl. auto.
      * eapply Permutation_Forall; [symmetry; apply sort_insert_perm|].
        constructor; [now repeat split | assumption].
Qed.

Lemma std_sort_lt_on l rest :
  strict_weak_on l = true -> incl rest l -> NoDup (map snd rest) ->
  StronglySorted (lt_on l) (std_sort rest).
Proof.
  intros Hl. induction rest as [|x rest IH]; simpl; intros Hincl Hnd.
  - constructor.
  - inversion Hnd as [|? ? Hx Hnd']; subst.
    assert (Hincl' : incl rest l) by (intros z Hz; apply Hincl; now right).
    apply sort_insert_lt_on; try assumption.
    + apply Hincl. now left.
    + intros z Hz. apply Hincl'.
      eapply Permutation_in; [apply std_sort_perm | exact Hz].
    + intros Hin. apply Hx.
      eapply Permutation_in; [|exact Hin].
      apply Permutation_map, std_sort_perm.
    + now apply IH.
Qed.

Lemma is_sorted_lt_on l s :
  strict_weak_on l = true -> NoDup (map snd s) -> incl s l ->
  is_sorted s -> StronglySorted (lt_on l) s.
Proof.
  intros Hl Hnd Hincl HS.
  apply Sorted_StronglySorted; [now apply lt_on_trans|].
  induction HS as [|a s HS IH Ha]; [constructor|].
  inversion Hnd as [|? ? Hna Hnd']; subst.
  assert (Hincl' : incl s l) by (intros z Hz; apply Hincl; now right).
  constructor; [now apply IH|].
  destruct Ha as [|b s Hba]; constructor.
  repeat split; [apply Hincl; now left | apply Hincl'; now left|].
  destruct (pair_lt_total a b) as [H|H]; [|assumption|congruence].
  intros Heq. apply Hna. simpl. auto.
Qed.

Lemma lt_on_sorted_unique l s t :
  StronglySorted (lt_on l) s -> StronglySorted (lt_on l) t ->
  Permutation s t -> s = t.
Proof.
  intros Hs. revert t.
  induction Hs as [|a s Hs IH Ha]; intros t Ht Hp.
  - apply Permutation_nil in Hp. now subst.
  - destruct Ht as [|b t Ht Hb].
    + symmetry in Hp. apply Permutation_nil in Hp. discriminate.
    + assert (Hab : a = b).
      { assert (Hina : In a (b :: t))
          by (eapply Permutation_in; [exact Hp | now left]).
        destruct Hina as [E|Hina]; [now symmetry|].
        assert (Hinb : In b (a :: s))
          by (eapply Permutation_in; [symmetry; exact Hp | now left]).
        destruct Hinb as [E|Hinb]; [assumption|].
        rewrite Forall_forall in Ha, Hb.
        destruct (Ha _ Hinb) as (_ & _ & H1).
        destruct (Hb _ Hina) as (_ & _ & H2).
        apply pair_lt_asym in H1. congruence. }
      subst b. f_equal. apply IH; [assumption|].
      eapply Permutation_cons_inv; exact Hp.
Qed.

(** Where [operator<] is a strict weak order on entries of pairwise
    different indices, the entries have one sorted arrangement only, and
    [std_sort] computes it. *)
Lemma std_sort_unique l s :
  strict_weak_on l = true -> NoDup (map snd l) ->
  Permutation s l -> is_sorted s -> s = std_sort l.
Proof.
  intros Hl Hnd Hp HS.
  apply (lt_on_sorted_unique l).
  - apply is_sorted_lt_on; try assumption.
    + eapply Permutation_NoDup; [|exact Hnd].
      apply Permutation_map. now symmetry.
    + intros z Hz. eapply Permutation_in; eassumption.
  - apply std_sort_lt_on; try assumption. apply incl_refl.
  - rewrite std_sort_perm. exact Hp.
Qed.

Lemma NoDup_map_eq {A B : Type} (f : A -> B) (l : list A) a b :
  NoDup (map f l) -> In a l -> In b l -> f a = f b -> a = b.
Proof.
  induction l as [|x l IH]; simpl; intros Hnd Ha Hb E; [contradiction|].
  inversion Hnd as [|? ? Hx Hnd']; subst.
  destruct Ha as [->|Ha], Hb as [->|Hb].
  - reflexivity.
  - exfalso. apply Hx. rewrite E. now apply in_map.
  - exfalso. apply Hx. rewrite <- E. now apply in_map.
  - now apply IH.
Qed.

Lemma incomparable_eq l a b :
  NoDup (map snd l) -> In a l -> In b l -> incomparable a b = true -> a = b.
Proof.
  intros Hnd Ha Hb H. unfold incomparable in H.
  apply andb_true_iff in H. destruct H as [H1 H2].
  apply negb_true_iff in H1, H2.
  apply (NoDup_map_eq snd l); try assumption.
  destruct (Z.eq_dec (snd a) (snd b)) as [E|E]; [assumption|].
  destruct (pair_lt_total a b E); congruence.
Qed.

(** Without NaN scores, [operator<] is a strict weak order on entries of
    pairwise different indices. *)
Lemma no_nan_strict_weak_on l :
  Forall (fun e => is_nan (fst e) = false) l -> NoDup (map snd l) ->
  strict_weak_on l = true.
Proof.
  intros Hnan Hnd. rewrite Forall_forall in Hnan. unfold strict_weak_on.
  apply forallb_forall. intros a Ha.
  rewrite pair_lt_irrefl. simpl.
  apply forallb_forall. intros b Hb.
  apply forallb_forall. intros c Hc.
  apply andb_true_iff. split.
  - destruct (pair_lt a b) eqn:Hab, (pair_lt b c) eqn:Hbc; try reflexivity.
    apply pair_lt_ranked in Hab, Hbc; auto.
    simpl. apply pair_lt_ranked; auto.
    eapply ranked_before_trans; eassumption.
  - destruct (incomparable a b) eqn:Hab, (incomparable b c) eqn:Hbc;
      try reflexivity.
    apply (incomparable_eq l) in Hab; [|assumption..].
    subst b. simpl. exact Hbc.
Qed.

Lemma similarity_list_strict_weak_on t_patch desc_ligand :
  (forall l_patch, In l_patch desc_ligand ->
     eligible t_patch l_patch = true ->
     is_nan (dissimilarity t_patch l_patch) = false) ->
  strict_weak_on (similarity_list_from t_patch 0 desc_ligand) = true.
Proof.
  intros Hnan. apply no_nan_strict_weak_on.
  - apply Forall_forall. intros e He.
    apply similarity_list_from_In in He.
    destruct He as (n & lp & Hn & He & ->). simpl.
    apply Hnan; [eapply nth_error_In; eassumption | assumption].
  - apply increasing_NoDup, similarity_list_from_increasing.
Qed.

Lemma firstn_In {A : Type} (n : nat) (l : list A) (a : A) :
  In a (firstn n l) -> In a l.
Proof.
  intros H. rewrite <- (firstn_skipn n l). apply in_or_app. now left.
Qed.

Lemma erase_from_Ok {A : Type} (k : Z) (v kept : list A) :
  erase_from k v = Ok kept ->
  0 <= k <= Z.of_nat (length v) /\ kept = firstn (Z.to_nat k) v.
Proof.
  unfold erase_from.
  destruct (Z.leb_spec 0 k), (Z.leb_spec k (Z.of_nat (length v))); simpl;
    try discriminate.
  intros [= <-]. split; [lia | reflexivity].
Qed.

(** When at least [N_BEST_PAIRS] candidates are eligible the ranker returns,
    and it keeps exactly [N_BEST_PAIRS] of them. *)
Lemma similarity_ranker_keeps {P : Parameters} t_patch desc_ligand :
  0 <= N_BEST_PAIRS <=
    Z.of_nat (length (similarity_list_from t_patch 0 desc_ligand)) ->
  exists kept,
    similarity_ranker t_patch desc_ligand = Ok kept /\
    length kept = Z.to_nat N_BEST_PAIRS.
Proof.
  intros H. unfold similarity_ranker, erase_from.
  rewrite std_sort_length.
  destruct (Z.leb_spec 0 N_BEST_PAIRS); [|lia].
  destruct (Z.leb_spec N_BEST_PAIRS
              (Z.of_nat (length (similarity_list_from t_patch 0 desc_ligand))));
    [|lia].
  simpl. eexists. split; [reflexivity|].
  rewrite length_firstn, std_sort_length. lia.
Qed.

Lemma similarity_ranker_length {P : Parameters} t_patch desc_ligand kept :
  similarity_ranker t_patch desc_ligand = Ok kept ->
  Z.of_nat (length kept) = N_BEST_PAIRS /\
  N_BEST_PAIRS <= Z.of_nat (length (similarity_list_from t_patch 0 desc_ligand)).
Proof.
  unfold similarity_ranker. intros H. apply erase_from_Ok in H.
  rewrite std_sort_length in H. destruct H as [Hk ->].
  rewrite length_firstn, std_sort_length. lia.
Qed.

(** C3: the removal step of line 113 is not clamped.  When fewer than
    [N_BEST_PAIRS] ligand patches are eligible for a target patch, the erase
    range starts past the end of the candidate list, which C++ leaves
    undefined; [build_matching_groups] meets it at its first target patch. *)
Theorem similarity_ranker_erase_unclamped {P : Parameters}
    t_patch desc_target desc_ligand groups_out :
  Z.of_nat (length (similarity_list_from t_patch 0 desc_ligand)) < N_BEST_PAIRS ->
  similarity_ranker t_patch desc_ligand = Undefined invalid_erase_range /\
  build_matching_groups (t_patch :: desc_target) desc_ligand groups_out
    = Undefined invalid_erase_range.
Proof.
  intros H.
  assert (E : similarity_ranker t_patch desc_ligand
              = Undefined invalid_erase_range).
  { unfold similarity_ranker, erase_from. rewrite std_sort_length.
    destruct (Z.leb_spec N_BEST_PAIRS
                (Z.of_nat (length (similarity_list_from t_patch 0 desc_ligand))));
      [lia|].
    now rewrite andb_false_r. }
  split; [exact E|].
  unfold build_matching_groups. simpl. now rewrite E.
Qed.

Lemma similarity_ranker_erase_unclamped_witness :
  @similarity_ranker sample_parameters flat_target []
    = Undefined invalid_erase_range /\
  @build_matching_groups sample_parameters [flat_target] [] []
    = Undefined invalid_erase_range.
Proof.
  apply (@similarity_ranker_erase_unclamped sample_parameters
           flat_target [] [] []).
  simpl. lia.
Defined.

Lemma zero_curvatures_divide (ct cl : double) :
  is_zero ct = true -> is_zero cl = true ->
  div (fabs (sub ct cl)) (max ct cl) = nan.
Proof.
  destruct ct as [s1| | |]; try discriminate.
  destruct cl as [s2| | |]; try discriminate.
  intros _ _. destruct s1, s2; reflexivity.
Qed.

(** C4, as the code has it: every eligible ligand patch is entered in the
    similarity list with the score [|ct - cl| / max(ct, cl)], computed
    without any test of the denominator; when both curvatures are zero the
    quotient is 0/0 and the score entered is NaN. *)
Theorem dissimilarity_unguarded t_patch desc_ligand l l_patch :
  at_index desc_ligand l = Ok l_patch ->
  eligible t_patch l_patch = true ->
  In (div (fabs (sub (curv (snd t_patch)) (curv (snd l_patch))))
          (max (curv (snd t_patch)) (curv (snd l_patch))), l)
     (similarity_list_from t_patch 0 desc_ligand) /\
  (is_zero (curv (snd t_patch)) = true ->
   is_zero (curv (snd l_patch)) = true ->
   In (nan, l) (similarity_list_from t_patch 0 desc_ligand)).
Proof.
  intros Hl He.
  assert (Hin : In (dissimilarity t_patch l_patch, l)
                   (similarity_list_from t_patch 0 desc_ligand)).
  { apply similarity_list_from_In.
    unfold at_index in Hl. destruct (Z.ltb_spec l 0); [discriminate|].
    destruct (nth_error desc_ligand (Z.to_nat l)) eqn:E; [|discriminate].
    injection Hl as ->.
    exists (Z.to_nat l), l_patch. repeat split; [assumption..|].
    f_equal. lia. }
  split; [exact Hin|].
  intros Ht Hz. unfold dissimilarity in Hin.
  now rewrite zero_curvatures_divide in Hin.
Qed.

Lemma dissimilarity_unguarded_witness :
  In (nan, 0) (similarity_list_from flat_target 0 [flat_ligand]).
Proof.
  apply (dissimilarity_unguarded flat_target [flat_ligand] 0 flat_ligand);
    reflexivity.
Defined.

(** C4, as stated, fails: for the eligible pair [flat_target], [flat_ligand],
    both of curvature zero, the division is performed and the similarity
    list, also after ranking, holds a NaN score. *)
Lemma zero_curvatures_not_guarded :
  eligible flat_target flat_ligand = true /\
  is_zero (curv (snd flat_target)) = true /\
  is_zero (curv (snd flat_ligand)) = true /\
  similarity_list_from flat_target 0 [flat_ligand] = [(nan, 0)] /\
  @similarity_ranker {| N_BEST_PAIRS := 1; G_THRESH := zero |}
     flat_target [flat_ligand] = Ok [(nan, 0)].
Proof. repeat split. Qed.

(** C9, as the code has it: for a target patch none of whose eligible
    ligand patches gets a NaN score, the ranker returns as soon as at least
    [N_BEST_PAIRS] ligand patches are eligible, and the [N_BEST_PAIRS]
    candidates it keeps are in ascending order of score and, for equal
    scores, of ligand index; each kept entry is the score of the ligand
    patch it names; and every candidate that was dropped ranks after every
    candidate that was kept. *)
Theorem similarity_ranker_sorted {P : Parameters} t_patch desc_ligand :
  (forall l_patch, In l_patch desc_ligand ->
     eligible t_patch l_patch = true ->
     is_nan (dissimilarity t_patch l_patch) = false) ->
  (0 <= N_BEST_PAIRS <=
     Z.of_nat (length (similarity_list_from t_patch 0 desc_ligand)) ->
   exists kept, similarity_ranker t_patch desc_ligand = Ok kept) /\
  (forall kept,
     similarity_ranker t_patch desc_ligand = Ok kept ->
     Z.of_nat (length kept) = N_BEST_PAIRS /\
     StronglySorted ranked_before kept /\
     Forall (fun e => exists l_patch,
               at_index desc_ligand (snd e) = Ok l_patch /\
               eligible t_patch l_patch = true /\
               fst e = dissimilarity t_patch l_patch) kept /\
     exists dropped,
       Permutation (kept ++ dropped)
                   (similarity_list_from t_patch 0 desc_ligand) /\
       Forall (fun d => Forall (fun k => ranked_before k d) kept) dropped).
Proof.
  intros Hnan. split.
  { intros Hk. destruct (similarity_ranker_keeps t_patch desc_ligand Hk)
      as (kept & Hr & _). eauto. }
  intros kept H.
  split; [apply (similarity_ranker_length _ _ _ H)|].
  unfold similarity_ranker in H.
  apply erase_from_Ok in H. destruct H as [Hk ->].
  set (cands := similarity_list_from t_patch 0 desc_ligand) in *.
  assert (Hc : Forall (fun e => is_nan (fst e) = false) cands).
  { apply Forall_forall. intros e He.
    apply similarity_list_from_In in He.
    destruct He as (n & lp & Hn & He & ->). simpl.
    apply Hnan; [eapply nth_error_In; eassumption | assumption]. }
  assert (Hs : StronglySorted ranked_before (std_sort cands)).
  { apply std_sort_sorted; [assumption|].
    apply increasing_NoDup, similarity_list_from_increasing. }
  rewrite <- (firstn_skipn (Z.to_nat N_BEST_PAIRS) (std_sort cands)) in Hs.
  apply StronglySorted_app_inv in Hs. destruct Hs as (Hs1 & _ & Hs2).
  split; [assumption|]. split.
  - apply Forall_forall. intros e He.
    assert (Hin : In e cands).
    { eapply Permutation_in; [apply std_sort_perm|].
      eapply firstn_In; eassumption. }
    apply similarity_list_from_In in Hin.
    destruct Hin as (n & lp & Hn & Hel & ->). simpl.
    exists lp. rewrite at_index_of_nat, Hn. auto.
  - exists (skipn (Z.to_nat N_BEST_PAIRS) (std_sort cands)).
    split; [|assumption].
    rewrite firstn_skipn. apply std_sort_perm.
Qed.

Lemma similarity_ranker_sorted_witness :
  StronglySorted ranked_before [(zero, 0); (zero, 4)].
Proof.
  refine (proj1 (proj2 (proj2 (@similarity_ranker_sorted sample_parameters
                   (patch_of (lit 0 0) (lit 1 0) Convex [0; 1])
                   sample_ligand _) [(zero, 0); (zero, 4)] _))).
  - intros l_patch Hin _. simpl in Hin.
    repeat (destruct Hin as [<-|Hin]; [reflexivity|]). contradiction.
  - reflexivity.
Defined.

(** C9, as stated, fails: for the target patch [flat_target], of curvature
    zero, and the ligand patches [flat_ligand] and [curved_ligand], the
    scores are 0/0 = NaN and 1/1 = 1.  [operator<] puts [(NaN, 0)] before
    [(1, 1)] by the indices and is a strict weak order on the two entries,
    so [std::sort] leaves them as they are; with [N_BEST_PAIRS = 2] both are
    kept, and the kept list is not in ascending order of score: NaN is not
    below or equal to 1. *)
Lemma nan_score_not_ascending :
  similarity_list_from flat_target 0 [flat_ligand; curved_ligand]
    = [(nan, 0); (one, 1)] /\
  strict_weak_on [(nan, 0); (one, 1)] = true /\
  @similarity_ranker {| N_BEST_PAIRS := 2; G_THRESH := zero |}
     flat_target [flat_ligand; curved_ligand] = Ok [(nan, 0); (one, 1)] /\
  leb nan one = false /\
  ~ StronglySorted ranked_before [(nan, 0); (one, 1)].
Proof.
  repeat split.
  intros H. inversion H as [|? ? _ HF]; subst.
  inversion HF as [|? ? [Hlt|[Heq _]] _]; subst; discriminate.
Qed.

(** ** The Group Builder: order of placement and definedness *)

Section PlacementOrder.
Context {P : Parameters}.
Variables desc_target desc_ligand : SurfaceDescriptors.

Local Abbreviation place_all := (place_all desc_target desc_ligand).
Local Abbreviation place_pair := (place_pair desc_target desc_ligand).
Local Abbreviation in_range := (in_range desc_target desc_ligand).

Lemma place_all_app pairs1 pairs2 groups :
  place_all (pairs1 ++ pairs2) groups =
  (groups' <- place_all pairs1 groups ;; place_all pairs2 groups').
Proof.
  revert groups. induction pairs1 as [|p rest IH]; simpl; intros groups.
  - reflexivity.
  - destruct (place_pair p groups); simpl; [apply IH | reflexivity].
Qed.

Lemma group_candidates_place_all t similarity_list groups :
  group_candidates desc_target desc_ligand t similarity_list groups =
  place_all (candidate_pairs t similarity_list) groups.
Proof.
  revert groups. induction similarity_list as [|lig rest IH]; simpl; intros groups.
  - reflexivity.
  - destruct (place_pair (t, snd lig) groups); simpl; [apply IH | reflexivity].
Qed.

Lemma targets_from_place_all targets :
  forall t groups groups',
    targets_from desc_target desc_ligand t targets groups = Ok groups' ->
    exists rankings,
      Forall2 (fun t_patch kept => similarity_ranker t_patch desc_ligand = Ok kept)
              targets rankings /\
      place_all (pairs_from t rankings) groups = Ok groups'.
Proof.
  induction targets as [|t_patch rest IH]; simpl; intros t groups groups' H.
  - exists []. split; [constructor | exact H].
  - inv_bind H. inv_bind H.
    destruct (IH _ _ _ H) as (rankings & HF & Hp).
    exists (a :: rankings). split; [constructor; assumption|].
    simpl. rewrite place_all_app, <- group_candidates_place_all, Ha0.
    exact Hp.
Qed.

Lemma at_index_in_range {A : Type} (v : list A) (i : Z) :
  0 <= i < Z.of_nat (length v) -> exists a, at_index v i = Ok a.
Proof.
  intros H. unfold at_index. destruct (Z.ltb_spec i 0); [lia|].
  destruct (nth_error v (Z.to_nat i)) eqn:E; [eauto|].
  apply nth_error_None in E. lia.
Qed.

Lemma geodesic_distance_defined desc i j :
  positions_convertible desc ->
  0 <= i < Z.of_nat (length desc) -> 0 <= j < Z.of_nat (length desc) ->
  exists d, geodesic_distance i j desc = Ok d.
Proof.
  intros Hc Hi Hj. unfold geodesic_distance.
  destruct (at_index_in_range desc i Hi) as (a & Ha).
  destruct (at_index_in_range desc j Hj) as (b & Hb).
  rewrite Ha, Hb. simpl.
  apply Hc; eapply at_index_Ok_In; eassumption.
Qed.

Hypothesis target_convertible : positions_convertible desc_target.
Hypothesis ligand_convertible : positions_convertible desc_ligand.

Lemma check_distances_defined cur_pair grp :
  in_range cur_pair -> Forall in_range grp ->
  forall c, exists b, check_distances desc_target desc_ligand cur_pair grp c = Ok b.
Proof.
  intros [Hc1 Hc2]. induction 1 as [|member rest [Hm1 Hm2] HF IH]; simpl; intros c.
  - eauto.
  - destruct (geodesic_distance_defined desc_target (fst cur_pair) (fst member))
      as (dt & ->); auto.
    destruct (geodesic_distance_defined desc_ligand (snd cur_pair) (snd member))
      as (dl & ->); auto.
    simpl. apply IH.
Qed.

Lemma try_groups_defined cur_pair groups :
  in_range cur_pair -> Forall (Forall in_range) groups ->
  forall added, exists r, try_groups desc_target desc_ligand cur_pair groups added = Ok r.
Proof.
  intros Hc. induction 1 as [|grp rest Hg HF IH]; simpl; intros added.
  - eauto.
  - destruct (check_distances_defined cur_pair grp Hc Hg true) as (b & ->). simpl.
    destruct (IH (if b then true else added)) as ([rest' added'] & ->). simpl. eauto.
Qed.

Lemma place_pair_defined cur_pair groups :
  in_range cur_pair -> Forall (Forall in_range) groups ->
  exists groups', place_pair cur_pair groups = Ok groups' /\
                  Forall (Forall in_range) groups'.
Proof.
  intros Hc HF.
  destruct (try_groups_defined cur_pair groups Hc HF false) as ([stepped added] & E).
  assert (exists groups', place_pair cur_pair groups = Ok groups') as (groups' & Hp).
  { unfold place_pair. rewrite E. simpl. destruct added; simpl; eauto. }
  exists groups'. split; [assumption|].
  apply place_pair_spec in Hp. destruct Hp as (st & HF2 & [[_ ->]|[_ ->]]).
  - clear -HF HF2 Hc. induction HF2 as [|g g' gs gs' Hs HF2 IH]; [constructor|].
    inversion HF; subst. constructor; [|auto].
    destruct Hs as [[_ ->]|[_ ->]]; [|assumption].
    apply Forall_app. split; [assumption | repeat constructor; apply Hc].
  - apply Forall_app. split; [assumption|]. repeat constructor; apply Hc.
Qed.

Lemma place_all_defined pairs :
  Forall in_range pairs ->
  forall groups, Forall (Forall in_range) groups ->
  exists groups', place_all pairs groups = Ok groups' /\
                  Forall (Forall in_range) groups'.
Proof.
  induction 1 as [|p rest Hp HF IH]; simpl; intros groups Hg.
  - eauto.
  - destruct (place_pair_defined p groups Hp Hg) as (g1 & -> & Hg1). simpl.
    apply IH, Hg1.
Qed.

Lemma similarity_ranker_indices t_patch kept :
  similarity_ranker t_patch desc_ligand = Ok kept ->
  Forall (fun lig => 0 <= snd lig < Z.of_nat (length desc_ligand)) kept.
Proof.
  unfold similarity_ranker. intros H. apply erase_from_Ok in H.
  destruct H as [_ ->]. apply Forall_forall. intros e He.
  apply firstn_In in He.
  eapply Permutation_in in He; [|apply std_sort_perm].
  apply similarity_list_from_In in He. destruct He as (n & lp & Hn & _ & ->).
  simpl. assert (n < length desc_ligand)%nat by (apply nth_error_Some; congruence).
  lia.
Qed.

Lemma targets_from_defined targets :
  Forall (fun t_patch =>
            0 <= N_BEST_PAIRS <=
              Z.of_nat (length (similarity_list_from t_patch 0 desc_ligand)))
         targets ->
  forall t groups,
    0 <= t -> t + Z.of_nat (length targets) <= Z.of_nat (length desc_target) ->
    Forall (Forall in_range) groups ->
    exists groups', targets_from desc_target desc_ligand t targets groups = Ok groups'.
Proof.
  induction 1 as [|t_patch rest Hk HF IH]; intros t groups Ht Hlen Hg;
    cbn [targets_from].
  - eauto.
  - change (length (t_patch :: rest)) with (S (length rest)) in Hlen.
    rewrite Nat2Z.inj_succ in Hlen.
    destruct (similarity_ranker_keeps t_patch desc_ligand Hk) as (kept & Hr & _).
    rewrite Hr. simpl. rewrite group_candidates_place_all.
    destruct (place_all_defined (candidate_pairs t kept)) with (groups := groups)
      as (g1 & -> & Hg1); [|assumption|].
    + apply similarity_ranker_indices in Hr. unfold candidate_pairs.
      apply Forall_map. eapply Forall_impl; [|exact Hr].
      intros lig Hl. simpl in Hl. split; simpl; lia.
    + simpl. apply IH; [lia|lia|assumption].
Qed.
End PlacementOrder.

(** ** The Transform Estimator: the loop *)

Lemma transformations_loop {M : Libm} {L : Linalg} matching_groups
    target desc_target ligand desc_ligand :
  forall mg_transformation out,
    transformations_from_matching_groups matching_groups
      target desc_target ligand desc_ligand mg_transformation = Ok out ->
    exists ts,
      out = mg_transformation ++ ts /\
      Forall2 (fun MG T =>
                 group_transformation MG target desc_target ligand desc_ligand
                 = Ok T) matching_groups ts.
Proof.
  induction matching_groups as [|MG rest IH]; simpl; intros mg0 out H.
  - injection H as <-. exists []. split; [now rewrite app_nil_r | constructor].
  - inv_bind H. destruct (IH _ _ H) as (ts & -> & HF).
    exists (a :: ts). split; [now rewrite <- app_assoc | now constructor].
Qed.

(** ** The claims on the Group Builder *)

(** [build_matching_groups] returns a result whenever every target patch
    has at least [N_BEST_PAIRS] eligible ligand patches and the distances
    between patch positions fit in [int]. *)
Lemma build_matching_groups_defined {P : Parameters} desc_target desc_ligand :
  positions_convertible desc_target ->
  positions_convertible desc_ligand ->
  Forall (fun t_patch =>
            0 <= N_BEST_PAIRS <=
              Z.of_nat (length (similarity_list_from t_patch 0 desc_ligand)))
         desc_target ->
  exists groups, build_matching_groups desc_target desc_ligand [] = Ok groups.
Proof.
  intros Ht Hl Hk. unfold build_matching_groups.
  eapply targets_from_defined; eauto; try lia; constructor.
Qed.



(** C10: both functions only append.  The groups that [groups_out] holds on
    entry keep their index and their pairs, new pairs being appended behind
    the old ones; they are the groups against which the first candidate pair
    is placed, and a group whose members all meet the criterion receives the
    pair.  The matrices that [mg_transformation] holds on entry form a prefix
    of its content on return, followed by one matrix per matching group. *)
Theorem outputs_only_appended {P : Parameters} {M : Libm} {L : Linalg}
    (desc_target desc_ligand : SurfaceDescriptors) :
  (forall groups_out groups',
     build_matching_groups desc_target desc_ligand groups_out = Ok groups' ->
     grows groups_out groups' /\
     exists rankings,
       Forall2 (fun t_patch kept =>
                  similarity_ranker t_patch desc_ligand = Ok kept)
               desc_target rankings /\
       place_all desc_target desc_ligand (pairs_from 0 rankings) groups_out
       = Ok groups') /\
  (forall cur_pair groups_out groups' i grp,
     place_pair desc_target desc_ligand cur_pair groups_out = Ok groups' ->
     nth_error groups_out i = Some grp ->
     criterion desc_target desc_ligand cur_pair grp ->
     nth_error groups' i = Some (grp ++ [cur_pair])) /\
  (forall matching_groups target ligand mg_transformation out,
     transformations_from_matching_groups matching_groups
       target desc_target ligand desc_ligand mg_transformation = Ok out ->
     exists ts,
       out = mg_transformation ++ ts /\ length ts = length matching_groups).
Proof.
  split; [|split].
  - intros groups_out groups' H. split.
    + eapply targets_from_grows; exact H.
    + now apply targets_from_place_all.
  - intros cur_pair groups_out groups' i grp H Hi Hc.
    apply place_pair_spec in H.
    destruct H as (stepped & HF & [[_ ->]|[HnE _]]).
    + clear -HF Hi Hc. revert i Hi.
      induction HF as [|g g' gs gs' Hs HF IH]; intros [|i] Hi;
        try discriminate; simpl in *.
      * injection Hi as ->. destruct Hs as [[_ ->]|[Hn _]]; [reflexivity|].
        contradiction.
      * now apply IH.
    + exfalso. apply HnE. apply Exists_exists. exists grp.
      split; [eapply nth_error_In; eassumption | assumption].
  - intros matching_groups target ligand mg0 out H.
    apply transformations_loop in H. destruct H as (ts & -> & HF).
    exists ts. split; [reflexivity|].
    symmetry. eapply Forall2_length; eassumption.
Qed.

Lemma outputs_only_appended_witness :
  grows [ [(0, 1)]; [(2, 0)] ]
        [ [(0, 1); (2, 2); (2, 1)]; [(2, 0); (0, 0); (0, 4); (2, 2)];
          [(1, 1); (2, 2); (2, 1)]; [(1, 0); (2, 2)] ].
Proof.
  apply (proj1 (@outputs_only_appended sample_parameters coarse_libm
                  sample_linalg sample_target sample_ligand)).
  vm_compute. reflexivity.
Defined.

(** ** The claim on the geodesic distance *)

(** C2: for two patches whose positions are 1.5 apart, [glm::length] yields
    1.5 and [geodesic_distance], whose return type is [int], yields 1; the
    two values differ, and they fall on different sides of a threshold of
    1.25. *)
Theorem geodesic_distance_truncates :
  glm.length (glm.vsub (vec3 zero zero zero) (vec3 (lit 3 (-1)) zero zero))
    = lit 3 (-1) /\
  geodesic_distance 0 1 near_patches = Ok 1 /\
  eqb (of_int 1) (lit 3 (-1)) = false /\
  ltb (lit 5 (-2)) (lit 3 (-1)) = true /\
  @exceeds_G_THRESH {| N_BEST_PAIRS := 1; G_THRESH := lit 5 (-2) |} 1 = false.
Proof. repeat split. Qed.

(** ** The Cloud Merger *)

Lemma no_nan_coords p :
  vec3_no_nan p = true ->
  is_nan (vx p) = false /\ is_nan (vy p) = false /\ is_nan (vz p) = false.
Proof.
  unfold vec3_no_nan. rewrite !andb_true_iff, !negb_true_iff. tauto.
Qed.

Lemma double_eqb_key x y :
  is_nan x = false -> is_nan y = false -> (eqb x y = true <-> key x = key y).
Proof. intros Hx Hy. rewrite double_eqb_spec. tauto. Qed.

Lemma double_ltb_key x y :
  is_nan x = false -> is_nan y = false ->
  (ltb x y = true <-> key_lt (key x) (key y)).
Proof. intros Hx Hy. rewrite double_ltb_spec. tauto. Qed.

Lemma comp_point_spec p q :
  vec3_no_nan p = true -> vec3_no_nan q = true ->
  (comp_point p q = true <-> point_lt p q).
Proof.
  intros Hp Hq.
  apply no_nan_coords in Hp. destruct Hp as (Hpx & Hpy & Hpz).
  apply no_nan_coords in Hq. destruct Hq as (Hqx & Hqy & Hqz).
  unfold comp_point, point_lt.
  pose proof (double_eqb_key _ _ Hpx Hqx) as Ex.
  pose proof (double_eqb_key _ _ Hpy Hqy) as Ey.
  pose proof (double_eqb_key _ _ Hpz Hqz) as Ez.
  rewrite <- (double_ltb_key _ _ Hpx Hqx), <- (double_ltb_key _ _ Hpy Hqy),
    <- (double_ltb_key _ _ Hpz Hqz).
  destruct (eqb (vx p) (vx q)) eqn:E1; simpl.
  - pose proof (double_eqb_not_ltb _ _ E1) as [L1 _]. rewrite L1.
    destruct (eqb (vy p) (vy q)) eqn:E2; simpl.
    + pose proof (double_eqb_not_ltb _ _ E2) as [L2 _]. rewrite L2.
      destruct (eqb (vz p) (vz q)) eqn:E3; simpl.
      * pose proof (double_eqb_not_ltb _ _ E3) as [L3 _]. rewrite L3.
        intuition congruence.
      * intuition congruence.
    + intuition congruence.
  - intuition congruence.
Qed.

Lemma vec3_eqb_spec p q :
  vec3_no_nan p = true -> vec3_no_nan q = true ->
  (glm.vec3_eqb p q = true <-> point_eq p q).
Proof.
  intros Hp Hq.
  apply no_nan_coords in Hp. destruct Hp as (Hpx & Hpy & Hpz).
  apply no_nan_coords in Hq. destruct Hq as (Hqx & Hqy & Hqz).
  unfold glm.vec3_eqb, point_eq. rewrite !andb_true_iff.
  rewrite (double_eqb_key _ _ Hpx Hqx), (double_eqb_key _ _ Hpy Hqy),
    (double_eqb_key _ _ Hpz Hqz). tauto.
Qed.

Lemma point_lt_irrefl p : ~ point_lt p p.
Proof.
  unfold point_lt. intros [H|[_ [H|[_ H]]]]; exact (key_lt_irrefl _ H).
Qed.

Lemma point_lt_trans p q r : point_lt p q -> point_lt q r -> point_lt p r.
Proof.
  unfold point_lt.
  intros [H1|[E1 [H1|[E1' H1]]]] [H2|[E2 [H2|[E2' H2]]]];
    rewrite ?E1, ?E1', <- ?E2, <- ?E2' in *;
    eauto 6 using key_lt_trans.
Qed.

Lemma point_trichotomy p q : point_lt p q \/ point_eq p q \/ point_lt q p.
Proof.
  unfold point_lt, point_eq.
  destruct (key_trichotomy (key (vx p)) (key (vx q))) as [?|[Ex|?]]; [tauto| |tauto].
  destruct (key_trichotomy (key (vy p)) (key (vy q))) as [?|[Ey|?]];
    [tauto| |right; right; right; split; [congruence|tauto]].
  destruct (key_trichotomy (key (vz p)) (key (vz q))) as [?|[Ez|?]]; [tauto|tauto|].
  right; right; right. split; [congruence|]. right. split; [congruence|assumption].
Qed.

Lemma point_eq_sym p q : point_eq p q -> point_eq q p.
Proof. unfold point_eq. intuition congruence. Qed.

Lemma point_eq_trans p q r : point_eq p q -> point_eq q r -> point_eq p r.
Proof. unfold point_eq. intuition congruence. Qed.

Lemma point_eq_lt p q r : point_eq p q -> point_lt q r -> point_lt p r.
Proof.
  unfold point_eq, point_lt. intros (E1 & E2 & E3). rewrite E1, E2, E3. tauto.
Qed.

Lemma point_eq_not_lt p q : point_eq p q -> ~ point_lt q p.
Proof.
  intros E H. apply (point_lt_irrefl p).
  eapply point_eq_lt; eassumption.
Qed.

Lemma set_insert_In p s q : In q (set_insert p s) -> q = p \/ In q s.
Proof.
  induction s as [|r rest IH]; simpl.
  - intros [<-|[]]. now left.
  - destruct (comp_point p r).
    + intros [<-|H]; [now left | now right].
    + destruct (comp_point r p); [|now right].
      intros [<-|H]; [right; now left|].
      destruct (IH H); [now left | right; now right].
Qed.

Lemma set_insert_keeps p s q : In q s -> In q (set_insert p s).
Proof.
  induction s as [|r rest IH]; simpl; [contradiction|].
  intros H. destruct (comp_point p r); [now right|].
  destruct (comp_point r p); [|assumption].
  destruct H as [<-|H]; [now left | right; now apply IH].
Qed.

Lemma set_insert_has p s :
  vec3_no_nan p = true -> points_ok s ->
  exists q, In q (set_insert p s) /\ point_eq p q.
Proof.
  intros Hp. induction 1 as [|r rest Hr Hrest IH]; simpl.
  - exists p. split; [now left | unfold point_eq; auto].
  - destruct (comp_point p r) eqn:E1.
    + exists p. split; [now left | unfold point_eq; auto].
    + destruct (comp_point r p) eqn:E2.
      * destruct IH as (q & Hq & He). exists q. split; [now right | assumption].
      * exists r. split; [now left|].
        destruct (point_trichotomy p r) as [H|[H|H]]; [|assumption|].
        -- apply comp_point_spec in H; [congruence|assumption|assumption].
        -- apply comp_point_spec in H; [congruence|assumption|assumption].
Qed.

Lemma set_insert_ok p s :
  vec3_no_nan p = true -> points_ok s -> points_ok (set_insert p s).
Proof.
  intros Hp Hs. apply Forall_forall. intros q Hq.
  apply set_insert_In in Hq. destruct Hq as [->|Hq]; [assumption|].
  unfold points_ok in Hs. rewrite Forall_forall in Hs. auto.
Qed.

Lemma set_insert_sorted p s :
  vec3_no_nan p = true -> points_ok s ->
  StronglySorted point_lt s -> StronglySorted point_lt (set_insert p s).
Proof.
  intros Hp Hok HS. induction HS as [|r rest HS IH HF]; simpl.
  - repeat constructor.
  - inversion Hok as [|? ? Hr Hrest]; subst.
    destruct (comp_point p r) eqn:E1.
    + apply comp_point_spec in E1; [|assumption|assumption].
      constructor; [constructor; assumption|].
      constructor; [assumption|].
      eapply Forall_impl; [|exact HF]. intros; eapply point_lt_trans; eassumption.
    + destruct (comp_point r p) eqn:E2; [|constructor; assumption].
      apply comp_point_spec in E2; [|assumption|assumption].
      constructor; [apply IH; assumption|].
      apply Forall_forall. intros q Hq. apply set_insert_In in Hq.
      destruct Hq as [->|Hq]; [assumption|].
      rewrite Forall_forall in HF. auto.
Qed.

Lemma insert_all_spec pts :
  points_ok pts ->
  forall cloud, points_ok cloud -> StronglySorted point_lt cloud ->
    points_ok (insert_all pts cloud) /\
    StronglySorted point_lt (insert_all pts cloud) /\
    (forall q, In q (insert_all pts cloud) -> In q pts \/ In q cloud) /\
    (forall p, In p pts \/ In p cloud ->
       exists q, In q (insert_all pts cloud) /\ point_eq p q).
Proof.
  induction 1 as [|p rest Hp Hrest IH]; simpl; intros cloud Hok HS.
  - split; [assumption|]. split; [assumption|]. split; [auto|].
    intros q Hq. destruct Hq as [Hq|Hq]; [contradiction|].
    exists q. split; [assumption | unfold point_eq; auto].
  - destruct (IH (set_insert p cloud)) as (H1 & H2 & H3 & H4);
      [now apply set_insert_ok | now apply set_insert_sorted|].
    split; [assumption|]. split; [assumption|]. split.
    + intros q Hq. destruct (H3 _ Hq) as [?|Hin]; [auto|].
      apply set_insert_In in Hin. destruct Hin as [->|?]; auto.
    + intros q [[<-|Hq]|Hq].
      * destruct (set_insert_has p cloud Hp Hok) as (q1 & Hq1 & He1).
        destruct (H4 q1 (or_intror Hq1)) as (q2 & Hq2 & He2).
        exists q2. split; [assumption | eapply point_eq_trans; eassumption].
      * apply H4. now left.
      * apply H4. right. now apply set_insert_keeps.
Qed.

Lemma sorted_once p cloud :
  vec3_no_nan p = true -> points_ok cloud -> StronglySorted point_lt cloud ->
  (exists q, In q cloud /\ point_eq p q) ->
  length (filter (glm.vec3_eqb p) cloud) = 1%nat.
Proof.
  intros Hp Hok HS. induction HS as [|r rest HS IH HF]; intros (q & Hq & He).
  - contradiction.
  - inversion Hok as [|? ? Hr Hrest]; subst. simpl.
    destruct (glm.vec3_eqb p r) eqn:E.
    + apply vec3_eqb_spec in E; [|assumption|assumption].
      simpl. f_equal.
      assert (Hnone : forall x, In x rest -> glm.vec3_eqb p x = false).
      { intros x Hx. destruct (glm.vec3_eqb p x) eqn:Ex; [|reflexivity].
        unfold points_ok in Hrest. rewrite Forall_forall in Hrest, HF.
        apply vec3_eqb_spec in Ex; [|auto|auto].
        exfalso. apply (point_eq_not_lt x r); [|auto].
        eapply point_eq_trans; [apply point_eq_sym; eassumption | assumption]. }
      clear -Hnone. induction rest as [|x rest IH]; [reflexivity|].
      simpl. rewrite Hnone by now left. apply IH. intros; apply Hnone; now right.
    + apply IH; [assumption|]. destruct Hq as [<-|Hq]; [|eauto].
      apply vec3_eqb_spec in He; [congruence|assumption|assumption].
Qed.

Lemma sorted_comp_point cloud :
  points_ok cloud -> StronglySorted point_lt cloud -> strictly_sorted cloud.
Proof.
  intros Hok HS. unfold strictly_sorted.
  induction HS as [|r rest HS IH HF]; [constructor|].
  inversion Hok as [|? ? Hr Hrest]; subst.
  constructor; [auto|].
  unfold points_ok in Hrest. rewrite Forall_forall in *.
  intros q Hq. apply comp_point_spec; auto.
Qed.

Lemma insert_patch_nodes_eq target ps :
  forall cloud,
    insert_patch_nodes target ps cloud =
    (pts <- node_positions target ps ;; Ok (insert_all pts cloud)).
Proof.
  induction ps as [|p rest IH]; simpl; intros cloud; [reflexivity|].
  destruct (get_node target p) as [n|f]; simpl; [|reflexivity].
  rewrite IH. destruct (node_positions target rest); reflexivity.
Qed.

Lemma insert_all_app pts1 pts2 cloud :
  insert_all (pts1 ++ pts2) cloud = insert_all pts2 (insert_all pts1 cloud).
Proof. apply fold_left_app. Qed.

Lemma merge_group_eq group descriptors target :
  forall cloud avg_normal,
    merge_group group descriptors target cloud avg_normal =
    (pts <- group_positions group descriptors target ;;
     ns <- group_normals group descriptors ;;
     Ok (insert_all pts cloud, fold_left glm.vadd ns avg_normal)).
Proof.
  induction group as [|desc_pair rest IH]; simpl; intros cloud avg_normal;
    [reflexivity|].
  destruct (at_index descriptors desc_pair) as [d|f]; simpl; [|reflexivity].
  rewrite insert_patch_nodes_eq.
  destruct (node_positions target (nodes (fst d))) as [here|f]; simpl;
    [|reflexivity].
  rewrite IH.
  destruct (group_positions rest descriptors target) as [later|f]; simpl;
    [|reflexivity].
  destruct (group_normals rest descriptors) as [ns|f]; simpl; [|reflexivity].
  now rewrite insert_all_app.
Qed.

Lemma build_cloud_from_group_eq group descriptors target :
  build_cloud_from_group group descriptors target =
  (pts <- group_positions group descriptors target ;;
   ns <- group_normals group descriptors ;;
   Ok (insert_all pts [],
       glm.normalize
         (glm.vscale (sum_normals ns)
            (div one (of_int (Z.of_nat (length group))))))).
Proof.
  unfold build_cloud_from_group. rewrite merge_group_eq.
  destruct (group_positions group descriptors target); simpl; [|reflexivity].
  destruct (group_normals group descriptors); reflexivity.
Qed.

Lemma group_normals_defined group descriptors target pts :
  group_positions group descriptors target = Ok pts ->
  exists ns, group_normals group descriptors = Ok ns.
Proof.
  revert pts. induction group as [|desc_pair rest IH]; simpl; intros pts H.
  - eauto.
  - inv_bind H. inv_bind H. inv_bind H. rewrite Ha. simpl.
    destruct (IH _ Ha1) as (ns & ->). simpl. eauto.
Qed.

Lemma node_positions_In target ps :
  forall pts, node_positions target ps = Ok pts ->
    forall p, In p pts <->
      exists node_ind n,
        In node_ind ps /\ get_node target node_ind = Ok n /\ pos n = p.
Proof.
  induction ps as [|i rest IH]; simpl; intros pts H p.
  - injection H as <-. split; [contradiction|]. intros (? & ? & [] & _).
  - inv_bind H. inv_bind H. injection H as <-. simpl.
    rewrite (IH _ Ha0). split.
    + intros [<-|(j & n & Hj & Hn & Hp)]; [exists i, a; auto|].
      exists j, n. auto.
    + intros (j & n & [<-|Hj] & Hn & Hp).
      * left. rewrite Ha in Hn. now injection Hn as <-.
      * right. exists j, n. auto.
Qed.

Lemma reachable_iff group descriptors target :
  forall pts, group_positions group descriptors target = Ok pts ->
    forall p, reachable group descriptors target p <-> In p pts.
Proof.
  unfold reachable.
  induction group as [|desc_pair rest IH]; simpl; intros pts H p.
  - injection H as <-. split; [|contradiction]. intros (? & ? & ? & ? & [] & _).
  - inv_bind H. inv_bind H. inv_bind H. injection H as <-.
    rewrite in_app_iff, <- (IH _ Ha1), (node_positions_In _ _ _ Ha0). split.
    + intros (i & d & j & n & [<-|Hi] & Hd & Hj & Hn & Hp).
      * left. rewrite Ha in Hd. injection Hd as <-. exists j, n. auto.
      * right. exists i, d, j, n. auto.
    + intros [(j & n & Hj & Hn & Hp)|(i & d & j & n & Hi & Hd & Hj & Hn & Hp)].
      * exists desc_pair, a, j, n. auto.
      * exists i, d, j, n. auto 6.
Qed.

(** C8: when no reachable position has a NaN coordinate,
    [build_cloud_from_group] returns as soon as the indices of the group and
    of its patches are in range, and the cloud it returns is strictly
    increasing for [comp_point], the lexicographic order of the coordinates,
    so that its order is fixed by its content; it holds only positions of
    nodes of the member patches; and every such position has exactly one
    element of the cloud equal to it, coordinate by coordinate under IEEE
    equality, however many patches and nodes lead to it. *)
Theorem build_cloud_from_group_deduplicates group descriptors target :
  (forall p, reachable group descriptors target p -> vec3_no_nan p = true) ->
  (forall pts,
     group_positions group descriptors target = Ok pts ->
     exists cloud avg_normal,
       build_cloud_from_group group descriptors target
       = Ok (cloud, avg_normal)) /\
  (forall cloud avg_normal,
     build_cloud_from_group group descriptors target = Ok (cloud, avg_normal) ->
     strictly_sorted cloud /\
     (forall q, In q cloud -> reachable group descriptors target q) /\
     (forall p, reachable group descriptors target p ->
        length (filter (glm.vec3_eqb p) cloud) = 1%nat)).
Proof.
  rewrite build_cloud_from_group_eq. intros Hnan. split.
  { intros pts H. rewrite H. simpl.
    destruct (group_normals_defined _ _ _ _ H) as (ns & ->). simpl. eauto. }
  intros cloud avg_normal H.
  inv_bind H. inv_bind H. injection H as <- _.
  rename a into pts.
  assert (Hok : points_ok pts).
  { apply Forall_forall. intros p Hp. apply Hnan.
    now apply (reachable_iff _ _ _ _ Ha). }
  destruct (insert_all_spec pts Hok []) as (H1 & H2 & H3 & H4);
    [constructor | constructor |].
  split; [now apply sorted_comp_point|]. split.
  - intros q Hq. apply (reachable_iff _ _ _ _ Ha).
    destruct (H3 _ Hq) as [?|[]]. assumption.
  - intros p Hp. apply sorted_once; auto.
    apply H4. left. now apply (reachable_iff _ _ _ _ Ha).
Qed.

(** C7, as the code has it: the average normal is the sum of the
    representative normals of the member patches, from the zero vector on,
    times [1.0 / group.size()], passed to [glm::normalize]; and the function
    returns whenever the indices of the group and of its patches are in
    range: nothing else makes it fail. *)
Theorem build_cloud_from_group_normal group descriptors target :
  (forall cloud avg_normal,
     build_cloud_from_group group descriptors target = Ok (cloud, avg_normal) ->
     exists ns,
       group_normals group descriptors = Ok ns /\
       avg_normal =
         glm.normalize
           (glm.vscale (sum_normals ns)
              (div one (of_int (Z.of_nat (length group)))))) /\
  (forall pts,
     group_positions group descriptors target = Ok pts ->
     exists cloud avg_normal,
       build_cloud_from_group group descriptors target = Ok (cloud, avg_normal)).
Proof.
  rewrite build_cloud_from_group_eq. split.
  - intros cloud avg_normal H. inv_bind H. inv_bind H.
    injection H as _ <-. eauto.
  - intros pts H. rewrite H. simpl.
    destruct (group_normals_defined _ _ _ _ H) as (ns & ->). simpl. eauto.
Qed.

Lemma build_cloud_from_group_deduplicates_witness :
  strictly_sorted [vec3 zero zero zero; vec3 one zero zero].
Proof.
  refine (proj1 (proj2 (build_cloud_from_group_deduplicates [0; 1]
                          sample_target sample_mesh _)
                   [vec3 zero zero zero; vec3 one zero zero]
                   (vec3 zero zero one) _)).
  - intros p Hp.
    apply (reachable_iff [0; 1] sample_target sample_mesh
             [vec3 zero zero zero; vec3 one zero zero;
              vec3 one zero zero; vec3 zero zero zero] eq_refl) in Hp.
    simpl in Hp. repeat (destruct Hp as [<-|Hp]; [reflexivity|]). contradiction.
  - reflexivity.
Defined.

Lemma build_cloud_from_group_normal_witness :
  exists ns,
    group_normals [0; 1] sample_target = Ok ns /\
    vec3 zero zero one =
      glm.normalize
        (glm.vscale (sum_normals ns)
           (div one (of_int (Z.of_nat (length [0; 1]))))).
Proof.
  apply (proj1 (build_cloud_from_group_normal [0; 1] sample_target sample_mesh)
           [vec3 zero zero zero; vec3 one zero zero] (vec3 zero zero one)).
  reflexivity.
Defined.

(** C7, as stated, fails: for the empty group, and for a group of two
    patches whose normals cancel, [build_cloud_from_group] returns normally
    and the average normal it returns is NaN in every coordinate. *)
Lemma build_cloud_from_group_unguarded :
  build_cloud_from_group [] [] [] = Ok ([], vec3 nan nan nan) /\
  build_cloud_from_group [0; 1] opposed_patches []
    = Ok ([], vec3 nan nan nan).
Proof. split; reflexivity. Qed.

(** ** The Transform Estimator *)

Lemma group_transformation_aligns {M : Libm} {L : Linalg}
    MG target desc_target ligand desc_ligand T :
  group_transformation MG target desc_target ligand desc_ligand = Ok T ->
  aligns target desc_target ligand desc_ligand MG T.
Proof.
  unfold group_transformation, aligns. intros H.
  inv_bind H. destruct a as [target_cloud target_normal].
  inv_bind H. destruct a as [ligand_cloud ligand_normal].
  injection H as <-.
  exists target_cloud, target_normal, ligand_cloud, ligand_normal.
  repeat split; assumption.
Qed.

(** The loop returns whenever the two clouds of every group are defined. *)
Lemma transformations_defined {M : Libm} {L : Linalg}
    matching_groups target desc_target ligand desc_ligand :
  Forall (fun MG =>
            (exists c n, build_cloud_from_group (map fst MG) desc_target target
                         = Ok (c, n)) /\
            (exists c n, build_cloud_from_group (map snd MG) desc_ligand ligand
                         = Ok (c, n))) matching_groups ->
  forall mg_transformation,
  exists out,
    transformations_from_matching_groups matching_groups
      target desc_target ligand desc_ligand mg_transformation = Ok out.
Proof.
  induction 1 as [|MG rest [(c1 & n1 & H1) (c2 & n2 & H2)] HF IH]; simpl;
    intros mg0.
  - eauto.
  - unfold group_transformation. rewrite H1. simpl. rewrite H2. simpl. apply IH.
Qed.

(** C5: the function returns whenever the two clouds of every group are
    defined; on return, [mg_transformation] holds its content on entry
    followed by one matrix per matching group, in the order of the groups;
    the matrix of a group is
    [translate(targetCentroid) * R * translate(-ligandCentroid)]
    where [R] is [mat4_cast] of the quaternion of scalar part [cos(angle)]
    and vector part [axis * sin(angle)], with
    [axis = cross(ligandNormal, targetNormal)] and
    [angle = (acos(dot(ligandNormal, targetNormal)) + pi) / 2], the clouds and
    normals being those of [build_cloud_from_group] on the two sides of the
    group. *)
Theorem transformations_from_matching_groups_spec {M : Libm} {L : Linalg}
    matching_groups target desc_target ligand desc_ligand mg_transformation :
  (Forall (fun MG =>
             (exists c n,
                build_cloud_from_group (map fst MG) desc_target target
                = Ok (c, n)) /\
             (exists c n,
                build_cloud_from_group (map snd MG) desc_ligand ligand
                = Ok (c, n))) matching_groups ->
   exists out,
     transformations_from_matching_groups matching_groups
       target desc_target ligand desc_ligand mg_transformation = Ok out) /\
  (forall out,
     transformations_from_matching_groups matching_groups
       target desc_target ligand desc_ligand mg_transformation = Ok out ->
     exists ts,
       out = mg_transformation ++ ts /\
       Forall2 (aligns target desc_target ligand desc_ligand)
               matching_groups ts).
Proof.
  split.
  { intros H. now apply transformations_defined. }
  intros out H. apply transformations_loop in H. destruct H as (ts & -> & HF).
  exists ts. split; [reflexivity|].
  eapply Forall2_impl; [|exact HF].
  intros MG T. apply group_transformation_aligns.
Qed.

Definition sample_transformations : list dmat4 :=
  Eval vm_compute in
    match @transformations_from_matching_groups coarse_libm sample_linalg
            sample_groups sample_mesh sample_target
            sample_ligand_mesh sample_ligand []
    with
    | Ok out => out
    | Undefined _ => []
    end.

Lemma transformations_from_matching_groups_spec_witness :
  exists ts,
    sample_transformations = [] ++ ts /\
    Forall2 (aligns (M := coarse_libm) (L := sample_linalg)
               sample_mesh sample_target sample_ligand_mesh sample_ligand)
            sample_groups ts.
Proof.
  apply (proj2 (@transformations_from_matching_groups_spec
                  coarse_libm sample_linalg sample_groups sample_mesh
                  sample_target sample_ligand_mesh sample_ligand [])
           sample_transformations).
  vm_compute. reflexivity.
Defined.

Lemma sub_self a : is_finite a = true -> sub a a = zero.
Proof.
  destruct a as [s| | |s m e]; try discriminate; intros _.
  - destruct s; reflexivity.
  - unfold sub, SFsub. rewrite Z.sub_diag. reflexivity.
Qed.

Lemma mul_zero_finite s : is_finite s = true -> exists b, mul zero s = S754_zero b.
Proof.
  destruct s as [b| | |b m e]; try discriminate; intros _; simpl; eauto.
Qed.

Lemma mat4_cast_zero_axis c b :
  is_finite c = true ->
  glm.mat4_eqb
    (glm.mat4_cast (quat c (S754_zero b) (S754_zero b) (S754_zero b)))
    glm.identity = true.
Proof.
  destruct c as [sc| | |sc mc ec]; try discriminate; intros _;
    destruct sc, b; reflexivity.
Qed.

(** When the two normals are equal and [dot(n, n)] is exactly 1, the axis is
    the zero vector, the angle is [pi / 2], and [mat4_cast] of the resulting
    quaternion [(cos(pi/2), 0, 0, 0)] is the identity matrix. *)
Lemma equal_unit_normals_identity {M : Libm} n :
  is_finite (mul (vy n) (vz n)) = true ->
  is_finite (mul (vz n) (vx n)) = true ->
  is_finite (mul (vx n) (vy n)) = true ->
  glm.dot n n = one ->
  glm.cross n n = vec3 zero zero zero /\
  rot_angle_of n n = div pi two /\
  glm.mat4_eqb (align_normals_of n n) glm.identity = true.
Proof.
  intros H1 H2 H3 Hd.
  assert (Hc : glm.cross n n = vec3 zero zero zero).
  { unfold glm.cross. now rewrite !sub_self. }
  assert (Ha : rot_angle_of n n = div pi two).
  { unfold rot_angle_of. rewrite Hd, acos_one. reflexivity. }
  split; [assumption|]. split; [assumption|].
  unfold align_normals_of. rewrite Hc, Ha. cbn [vx vy vz].
  destruct (mul_zero_finite (sin (div pi two))) as (b & ->);
    [apply sin_finite; reflexivity|].
  apply mat4_cast_zero_axis. apply cos_finite. reflexivity.
Qed.

(** C6: the group [(0, 0)] over [diagonal_patch] on both sides has the same
    average normal [n = normalize (1, 1, 1)] on the target and on the ligand
    side.  Its coordinates are rounded, and [dot(n, n)] is the double next
    above 1, outside the domain of [acos]: the angle is NaN, and so is every
    entry of the rotation block of the matrix that is returned. *)
Theorem equal_diagonal_normals_yield_nan {M : Libm} {L : Linalg} :
  exists cloud n A,
    build_cloud_from_group [0] diagonal_patch sample_mesh = Ok (cloud, n) /\
    ltb one (glm.dot n n) = true /\
    align_normals_of n n = A /\
    rotation_all_nan A = true /\
    transformations_from_matching_groups [[(0, 0)]]
      sample_mesh diagonal_patch sample_mesh diagonal_patch []
    = Ok [final_t_of (cloud_centroid cloud) (cloud_centroid cloud) A].
Proof.
  pose (n := glm.normalize (vec3 one one one)).
  assert (Hb : build_cloud_from_group [0] diagonal_patch sample_mesh
               = Ok ([vec3 zero zero zero], n)) by (vm_compute; reflexivity).
  assert (Hd : ltb one (fabs (glm.dot n n)) = true) by (vm_compute; reflexivity).
  assert (HA : rot_angle_of n n = nan).
  { unfold rot_angle_of. rewrite (acos_domain_error _ Hd). reflexivity. }
  exists [vec3 zero zero zero], n, (align_normals_of n n).
  split; [exact Hb|]. split; [vm_compute; reflexivity|]. split; [reflexivity|].
  split.
  - unfold align_normals_of. rewrite HA, cos_nan, sin_nan. vm_compute. reflexivity.
  - cbn [transformations_from_matching_groups]. unfold group_transformation.
    cbn [map fst snd]. rewrite Hb. reflexivity.
Qed.

(** * Further properties of the code *)

(** ** Further properties of [geodesic_distance] *)

Lemma binary_round_aux_opp m e l :
  binary_round_aux prec emax true m e l
  = neg (binary_round_aux prec emax false m e l).
Proof.
  unfold binary_round_aux.
  destruct (shr_fexp prec emax m e l) as [mrs' e'].
  destruct (shr_fexp prec emax _ e' loc_Exact) as [mrs'' e''].
  destruct (shr_m mrs''); try reflexivity.
  destruct (e'' <=? emax - prec); reflexivity.
Qed.

Lemma binary_normalize_opp m e :
  m <> 0 ->
  binary_normalize prec emax (- m) e false
  = neg (binary_normalize prec emax m e false).
Proof.
  intros Hm. destruct m as [|p|p]; [contradiction| |]; simpl;
    unfold binary_round;
    destruct (shl_align p e _) as [mz ez];
    rewrite binary_round_aux_opp; [reflexivity|].
  destruct (binary_round_aux prec emax false (Z.pos mz) ez loc_Exact) as [[]|[]| |[] ? ?];
    reflexivity.
Qed.

Lemma sub_swap_finite sa ma ea sb mb eb :
  sub (S754_finite sa ma ea) (S754_finite sb mb eb)
    = neg (sub (S754_finite sb mb eb) (S754_finite sa ma ea)) \/
  (sub (S754_finite sa ma ea) (S754_finite sb mb eb) = zero /\
   sub (S754_finite sb mb eb) (S754_finite sa ma ea) = zero).
Proof.
  unfold sub, SFsub. rewrite (Z.min_comm eb ea).
  set (x := cond_Zopp sa (Z.pos (fst (shl_align ma ea (Z.min ea eb))))).
  set (y := cond_Zopp sb (Z.pos (fst (shl_align mb eb (Z.min ea eb))))).
  destruct (Z.eq_dec (y - x) 0) as [E|E].
  - right. replace (x - y) with 0 by lia. rewrite E. split; reflexivity.
  - left. replace (x - y) with (- (y - x)) by lia.
    now apply binary_normalize_opp.
Qed.

Lemma sub_swap a b :
  sub a b = neg (sub b a) \/ (sub a b = zero /\ sub b a = zero).
Proof.
  destruct a as [sa|sa| |sa ma ea], b as [sb|sb| |sb mb eb];
    try apply sub_swap_finite;
    try (left; reflexivity);
    try (destruct sa; left; reflexivity);
    try (destruct sb; left; reflexivity);
    destruct sa, sb; (left; reflexivity) || (right; split; reflexivity).
Qed.

Lemma mul_neg_neg x : mul (neg x) (neg x) = mul x x.
Proof. destruct x as [[]|[]| |[] m e]; reflexivity. Qed.

Lemma square_sub_swap a b : mul (sub a b) (sub a b) = mul (sub b a) (sub b a).
Proof.
  destruct (sub_swap a b) as [E|[E1 E2]].
  - rewrite E. apply mul_neg_neg.
  - now rewrite E1, E2.
Qed.

Lemma length_vsub_swap p q :
  glm.length (glm.vsub p q) = glm.length (glm.vsub q p).
Proof.
  unfold glm.length, glm.dot, glm.vsub. cbn [vx vy vz].
  now rewrite (square_sub_swap (vx p)), (square_sub_swap (vy p)),
    (square_sub_swap (vz p)).
Qed.

Lemma geodesic_distance_swap lhs_patch_ind rhs_patch_ind desc :
  geodesic_distance lhs_patch_ind rhs_patch_ind desc
  = geodesic_distance rhs_patch_ind lhs_patch_ind desc.
Proof.
  unfold geodesic_distance.
  destruct (at_index desc lhs_patch_ind) as [lhs|f] eqn:El;
    destruct (at_index desc rhs_patch_ind) as [rhs|g] eqn:Er; simpl.
  - now rewrite length_vsub_swap.
  - reflexivity.
  - reflexivity.
  - unfold at_index in El, Er.
    destruct (lhs_patch_ind <? 0); [injection El as <-|];
    destruct (rhs_patch_ind <? 0); try (injection Er as <-); try reflexivity;
    repeat match goal with
    | H : match ?x with _ => _ end = _ |- _ => destruct x; try discriminate
    end; congruence.
Qed.

(** X1: the geodesic distance is symmetric: exchanging the two patch
    indices gives the same outcome, the same [int] when both indices are in
    range and the length fits, and undefined behaviour otherwise. *)
Theorem geodesic_distance_symmetric lhs_patch_ind rhs_patch_ind desc :
  geodesic_distance lhs_patch_ind rhs_patch_ind desc
  = geodesic_distance rhs_patch_ind lhs_patch_ind desc.
Proof.
  destruct (geodesic_distance lhs_patch_ind rhs_patch_ind desc) eqn:E;
    rewrite geodesic_distance_swap in E; now rewrite E.
Qed.

Lemma binary_round_aux_cases sx m e l :
  let r := binary_round_aux prec emax sx m e l in
  r = S754_nan \/ r = S754_zero sx \/ r = S754_infinity sx \/
  exists m' e', r = S754_finite sx m' e'.
Proof.
  unfold binary_round_aux.
  destruct (shr_fexp prec emax m e l) as [mrs' e'].
  destruct (shr_fexp prec emax _ e' loc_Exact) as [mrs'' e''].
  destruct (shr_m mrs'');
    [right; left; reflexivity | | left; reflexivity].
  destruct (e'' <=? emax - prec); [|right; right; left; reflexivity].
  right; right; right. eauto.
Qed.

Lemma sqrt_truncate_nonneg x z : truncate (sqrt x) = Some z -> 0 <= z.
Proof.
  destruct x as [s|[]| |[] m e]; try discriminate.
  - intros [= <-]. lia.
  - unfold sqrt, SFsqrt.
    destruct (SFsqrt_core_binary prec emax (Z.pos m) e) as [[mz ez] lz].
    destruct (binary_round_aux_cases false mz ez lz)
      as [E|[E|[E|(m' & e' & E)]]]; rewrite E; simpl; try discriminate.
    + intros [= <-]. lia.
    + intros [= <-]. apply Z.shiftl_nonneg. lia.
Qed.

(** X2: a geodesic distance that is returned is never negative. *)
Theorem geodesic_distance_nonneg lhs_patch_ind rhs_patch_ind desc d :
  geodesic_distance lhs_patch_ind rhs_patch_ind desc = Ok d -> 0 <= d.
Proof.
  unfold geodesic_distance. intros H. inv_bind H. inv_bind H.
  unfold to_int in H.
  destruct (truncate _) as [z|] eqn:E; [|discriminate].
  apply sqrt_truncate_nonneg in E.
  destruct ((INT_MIN <=? z) && (z <=? INT_MAX)); [|discriminate].
  now injection H as <-.
Qed.

(** X3: the geodesic distance from a patch to itself is 0 as soon as the
    coordinates of its position are finite. *)
Theorem geodesic_distance_self patch_ind desc d :
  at_index desc patch_ind = Ok d ->
  vec3_finite (get_pos (fst d)) = true ->
  geodesic_distance patch_ind patch_ind desc = Ok 0.
Proof.
  intros H Hf. unfold geodesic_distance. rewrite H. simpl.
  unfold vec3_finite in Hf. rewrite !andb_true_iff in Hf.
  destruct Hf as [[Hx Hy] Hz].
  unfold glm.vsub. rewrite !sub_self by assumption. reflexivity.
Qed.

Lemma geodesic_distance_nonneg_witness : 0 <= 1.
Proof.
  apply (geodesic_distance_nonneg 0 1 near_patches 1). reflexivity.
Defined.

Lemma geodesic_distance_self_witness :
  geodesic_distance 1 1 near_patches = Ok 0.
Proof.
  apply (geodesic_distance_self 1 near_patches
           (patch_of (lit 3 (-1)) zero Convex [])); reflexivity.
Defined.

(** ** Further properties of [build_matching_groups] *)

Section GroupInvariants.
Context {P : Parameters}.
Variables desc_target desc_ligand : SurfaceDescriptors.

Local Abbreviation place_all := (place_all desc_target desc_ligand).
Local Abbreviation place_pair := (place_pair desc_target desc_ligand).
Local Abbreviation step_of := (step_of desc_target desc_ligand).
Local Abbreviation close_to := (close_to desc_target desc_ligand).

Lemma step_of_cases cur_pair grp grp' :
  step_of cur_pair grp grp' -> grp' = grp ++ [cur_pair] \/ grp' = grp.
Proof. intros [[_ ->]|[_ ->]]; auto. Qed.

(** The groups after a placement: each old group, with or without the
    pair behind it, and possibly the singleton of the pair. *)
Lemma place_pair_shape cur_pair groups groups' :
  place_pair cur_pair groups = Ok groups' ->
  exists stepped extra,
    groups' = stepped ++ extra /\
    Forall2 (fun grp grp' => grp' = grp ++ [cur_pair] \/ grp' = grp)
            groups stepped /\
    (extra = [] \/ extra = [[cur_pair]]) /\
    covered cur_pair groups'.
Proof.
  intros H. apply place_pair_spec in H.
  destruct H as (stepped & HF & [[HE ->]|[_ ->]]).
  - exists stepped, []. rewrite app_nil_r.
    split; [reflexivity|]. split.
    + eapply Forall2_impl; [|exact HF]. apply step_of_cases.
    + split; [now left|].
      clear -HF HE. induction HF as [|g g' gs gs' Hs HF IH]; [inversion HE|].
      inversion HE as [? ? Hc|? ? HE']; subst.
      * destruct Hs as [[_ ->]|[Hn _]]; [|contradiction].
        exists (g ++ [cur_pair]). split; [now left|].
        apply in_or_app. right. now left.
      * destruct (IH HE') as (grp & Hin & Hp).
        exists grp. split; [now right | assumption].
  - exists groups, [[cur_pair]]. split; [reflexivity|]. split.
    + clear. induction groups; constructor; auto.
    + split; [now right|].
      exists [cur_pair]. split; [|now left].
      apply in_or_app. right. now left.
Qed.

Lemma place_pair_Forall (Q : Z * Z -> Prop) cur_pair groups groups' :
  place_pair cur_pair groups = Ok groups' ->
  Q cur_pair -> Forall (Forall Q) groups -> Forall (Forall Q) groups'.
Proof.
  intros H Hq HF. apply place_pair_shape in H.
  destruct H as (stepped & extra & -> & HS & He & _).
  apply Forall_app. split.
  - clear -HS HF Hq. induction HS as [|g g' gs gs' Hs HS IH]; [constructor|].
    inversion HF; subst. constructor; [|auto].
    destruct Hs as [->| ->]; [|assumption].
    apply Forall_app. split; [assumption | repeat constructor; assumption].
  - destruct He as [->| ->]; repeat constructor; assumption.
Qed.

Lemma place_all_Forall (Q : Z * Z -> Prop) pairs :
  Forall Q pairs ->
  forall groups groups',
    place_all pairs groups = Ok groups' ->
    Forall (Forall Q) groups -> Forall (Forall Q) groups'.
Proof.
  induction 1 as [|p rest Hp HF IH]; simpl; intros groups groups' H Hg.
  - now injection H as <-.
  - inv_bind H. eapply IH; [eassumption|].
    eapply place_pair_Forall; eassumption.
Qed.

Lemma place_pair_nonempty cur_pair groups groups' :
  place_pair cur_pair groups = Ok groups' ->
  Forall (fun grp => grp <> []) groups ->
  Forall (fun grp => grp <> []) groups'.
Proof.
  intros H HF. apply place_pair_shape in H.
  destruct H as (stepped & extra & -> & HS & He & _).
  apply Forall_app. split.
  - clear -HS HF. induction HS as [|g g' gs gs' Hs HS IH]; [constructor|].
    inversion HF; subst. constructor; [|auto].
    destruct Hs as [->| ->]; [|assumption].
    intros E. apply app_eq_nil in E. destruct E as [_ E]. discriminate.
  - destruct He as [->| ->]; repeat constructor. discriminate.
Qed.

Lemma place_all_nonempty pairs :
  forall groups groups',
    place_all pairs groups = Ok groups' ->
    Forall (fun grp => grp <> []) groups ->
    Forall (fun grp => grp <> []) groups'.
Proof.
  induction pairs as [|p rest IH]; simpl; intros groups groups' H Hg.
  - now injection H as <-.
  - inv_bind H. eapply IH; [eassumption|].
    eapply place_pair_nonempty; eassumption.
Qed.

Lemma place_pair_length cur_pair groups groups' :
  place_pair cur_pair groups = Ok groups' ->
  (length groups <= length groups' <= S (length groups))%nat.
Proof.
  intros H. apply place_pair_shape in H.
  destruct H as (stepped & extra & -> & HS & He & _).
  apply Forall2_length in HS. rewrite length_app.
  unfold MatchingGroup in *.
  destruct He as [->| ->]; simpl; lia.
Qed.

Lemma place_all_length pairs :
  forall groups groups',
    place_all pairs groups = Ok groups' ->
    (length groups <= length groups' <= length groups + length pairs)%nat.
Proof.
  induction pairs as [|p rest IH]; simpl; intros groups groups' H.
  - injection H as <-. lia.
  - inv_bind H. apply IH in H. apply place_pair_length in Ha.
    unfold MatchingGroup in *. lia.
Qed.

Lemma grows_covered p old new :
  grows old new -> covered p old -> covered p new.
Proof.
  intros Hg (grp & Hin & Hp).
  apply In_nth_error in Hin. destruct Hin as (i & Hi).
  destruct (Hg _ _ Hi) as (ext & Hn).
  exists (grp ++ ext). split; [eapply nth_error_In; eassumption|].
  apply in_or_app. now left.
Qed.

Lemma place_all_grows pairs :
  forall groups groups',
    place_all pairs groups = Ok groups' -> grows groups groups'.
Proof.
  induction pairs as [|p rest IH]; simpl; intros groups groups' H.
  - injection H as <-. apply grows_refl.
  - inv_bind H. eapply grows_trans; [eapply place_pair_grows; eassumption|].
    now apply IH.
Qed.

Lemma place_all_covered pairs :
  forall groups groups',
    place_all pairs groups = Ok groups' ->
    forall p, In p pairs -> covered p groups'.
Proof.
  induction pairs as [|q rest IH]; simpl; intros groups groups' H p Hp.
  - contradiction.
  - inv_bind H. destruct Hp as [<-|Hp].
    + eapply grows_covered; [eapply place_all_grows; eassumption|].
      apply place_pair_shape in Ha.
      destruct Ha as (? & ? & _ & _ & _ & Hc). exact Hc.
    + eapply IH; eassumption.
Qed.

(** No pair is placed twice into a group. *)
Lemma place_pair_NoDup cur_pair groups groups' :
  place_pair cur_pair groups = Ok groups' ->
  Forall (fun grp => ~ In cur_pair grp) groups ->
  Forall (@NoDup (Z * Z)) groups -> Forall (@NoDup (Z * Z)) groups'.
Proof.
  intros H Hn HF. apply place_pair_shape in H.
  destruct H as (stepped & extra & -> & HS & He & _).
  apply Forall_app. split.
  - clear -HS HF Hn. induction HS as [|g g' gs gs' Hs HS IH]; [constructor|].
    inversion HF; subst. inversion Hn; subst. constructor; [|auto].
    destruct Hs as [->| ->]; [|assumption].
    apply NoDup_app; [assumption | repeat constructor; intros [] | ].
    intros x Hx [<-|[]]. contradiction.
  - destruct He as [->| ->]; repeat constructor. intros [].
Qed.

Lemma place_pair_members cur_pair groups groups' p :
  place_pair cur_pair groups = Ok groups' ->
  (exists grp, In grp groups' /\ In p grp) ->
  p = cur_pair \/ exists grp, In grp groups /\ In p grp.
Proof.
  intros H (grp' & Hin & Hp). apply place_pair_shape in H.
  destruct H as (stepped & extra & -> & HS & He & _).
  apply in_app_or in Hin. destruct Hin as [Hin|Hin].
  - clear -HS Hin Hp. induction HS as [|g g' gs gs' Hs HS IH]; [contradiction|].
    destruct Hin as [<-|Hin].
    + destruct Hs as [->| ->].
      * apply in_app_or in Hp. destruct Hp as [Hp|[<-|[]]]; [|now left].
        right. exists g. split; [now left | assumption].
      * right. exists g. split; [now left | assumption].
    + destruct (IH Hin) as [?|(grp & Hg & Hq)]; [now left|].
      right. exists grp. split; [now right | assumption].
  - destruct He as [->| ->]; [contradiction|].
    destruct Hin as [<-|[]]. destruct Hp as [<-|[]]. now left.
Qed.

Lemma place_all_NoDup pairs :
  NoDup pairs ->
  forall groups groups',
    place_all pairs groups = Ok groups' ->
    (forall p grp, In p pairs -> In grp groups -> ~ In p grp) ->
    Forall (@NoDup (Z * Z)) groups -> Forall (@NoDup (Z * Z)) groups'.
Proof.
  induction 1 as [|q rest Hq Hnd IH]; simpl; intros groups groups' H Hfresh HF.
  - now injection H as <-.
  - inv_bind H. eapply IH; [eassumption| |].
    + intros p grp Hp Hgrp Hin.
      destruct (place_pair_members q groups a p Ha) as [->|(g0 & Hg0 & Hp0)];
        [eauto|contradiction|].
      eapply Hfresh; [right; exact Hp | exact Hg0 | exact Hp0].
    + eapply place_pair_NoDup; [eassumption| |assumption].
      apply Forall_forall. intros grp Hgrp. apply Hfresh; [now left | assumption].
Qed.
End GroupInvariants.

Lemma similarity_ranker_entries {P : Parameters} t_patch desc_ligand kept e :
  similarity_ranker t_patch desc_ligand = Ok kept -> In e kept ->
  exists l_patch,
    at_index desc_ligand (snd e) = Ok l_patch /\
    eligible t_patch l_patch = true /\
    fst e = dissimilarity t_patch l_patch.
Proof.
  unfold similarity_ranker. intros H He. apply erase_from_Ok in H.
  destruct H as [_ ->]. apply firstn_In in He.
  eapply Permutation_in in He; [|apply std_sort_perm].
  apply similarity_list_from_In in He. destruct He as (n & lp & Hn & Hel & ->).
  exists lp. simpl. rewrite at_index_of_nat, Hn. auto.
Qed.

Lemma NoDup_firstn {A : Type} (n : nat) (l : list A) :
  NoDup l -> NoDup (firstn n l).
Proof.
  intros H. rewrite <- (firstn_skipn n l) in H.
  now apply NoDup_app_remove_r in H.
Qed.

Lemma similarity_ranker_distinct {P : Parameters} t_patch desc_ligand kept :
  similarity_ranker t_patch desc_ligand = Ok kept -> NoDup (map snd kept).
Proof.
  unfold similarity_ranker. intros H. apply erase_from_Ok in H.
  destruct H as [_ ->]. rewrite <- firstn_map. apply NoDup_firstn.
  eapply Permutation_NoDup.
  - apply Permutation_map. symmetry. apply std_sort_perm.
  - apply increasing_NoDup, similarity_list_from_increasing.
Qed.

(** X8: where [operator<] is a strict weak order on the candidates of a
    target patch, which is what [std::sort] requires and what holds in the
    absence of NaN scores, the candidates kept name pairwise different
    ligand patches, all of them in range, and they are the first
    [N_BEST_PAIRS] entries of every sorted arrangement of the candidates:
    the kept list does not depend on how the library sorts. *)
Theorem similarity_ranker_NoDup {P : Parameters} t_patch desc_ligand kept :
  strict_weak_on (similarity_list_from t_patch 0 desc_ligand) = true ->
  similarity_ranker t_patch desc_ligand = Ok kept ->
  NoDup (map snd kept) /\
  Forall (fun lig => 0 <= snd lig < Z.of_nat (length desc_ligand)) kept /\
  (forall sorted,
     Permutation sorted (similarity_list_from t_patch 0 desc_ligand) ->
     is_sorted sorted ->
     kept = firstn (Z.to_nat N_BEST_PAIRS) sorted).
Proof.
  intros Hswo H. split; [|split].
  - now apply similarity_ranker_distinct in H.
  - now apply similarity_ranker_indices in H.
  - intros sorted Hp Hs.
    rewrite (std_sort_unique _ sorted Hswo); try assumption.
    + unfold similarity_ranker in H. apply erase_from_Ok in H. apply H.
    + apply increasing_NoDup, similarity_list_from_increasing.
Qed.

Lemma similarity_ranker_NoDup_witness : NoDup (map snd [(zero, 0); (zero, 4)]).
Proof.
  apply (proj1 (@similarity_ranker_NoDup sample_parameters
                  (patch_of (lit 0 0) (lit 1 0) Convex [0; 1]) sample_ligand
                  [(zero, 0); (zero, 4)] eq_refl eq_refl)).
Defined.

Section Placed.
Context {P : Parameters}.
Variable desc_ligand : SurfaceDescriptors.

Local Abbreviation ranked :=
  (fun t_patch kept => similarity_ranker t_patch desc_ligand = Ok kept).

Lemma pairs_from_In targets rankings :
  Forall2 ranked targets rankings ->
  forall t0 p,
    In p (pairs_from t0 rankings) <->
    exists k t_patch kept lig,
      nth_error targets k = Some t_patch /\
      similarity_ranker t_patch desc_ligand = Ok kept /\
      In lig kept /\ p = (t0 + Z.of_nat k, snd lig).
Proof.
  induction 1 as [|tp kept targets rankings Hr HF IH]; intros t0 p; simpl.
  - split; [contradiction|]. intros ([|k] & ? & ? & ? & H & _); discriminate.
  - rewrite in_app_iff, IH. unfold candidate_pairs. rewrite in_map_iff. split.
    + intros [(lig & <- & Hl)|(k & tp' & kept' & lig & Hk & Hr' & Hl & ->)].
      * exists 0%nat, tp, kept, lig. simpl. repeat split; auto.
        f_equal. lia.
      * exists (S k), tp', kept', lig. simpl. repeat split; auto.
        f_equal. lia.
    + intros ([|k] & tp' & kept' & lig & Hk & Hr' & Hl & ->); simpl in Hk.
      * injection Hk as <-. left. exists lig. split.
        -- f_equal. lia.
        -- cbv beta in Hr. rewrite Hr in Hr'. now injection Hr' as <-.
      * right. exists k, tp', kept', lig. repeat split; auto. f_equal. lia.
Qed.

Lemma pairs_from_lower targets rankings :
  Forall2 ranked targets rankings ->
  forall t0, Forall (fun p => t0 <= fst p) (pairs_from t0 rankings).
Proof.
  intros HF t0. apply Forall_forall. intros p Hp.
  apply (pairs_from_In _ _ HF) in Hp.
  destruct Hp as (k & ? & ? & ? & _ & _ & _ & ->). simpl. lia.
Qed.

Lemma pairs_from_NoDup targets rankings :
  Forall2 ranked targets rankings ->
  forall t0, NoDup (pairs_from t0 rankings).
Proof.
  induction 1 as [|tp kept targets rankings Hr HF IH]; intros t0; simpl.
  - constructor.
  - apply NoDup_app.
    + unfold candidate_pairs.
      apply similarity_ranker_distinct in Hr.
      clear -Hr. induction kept as [|e kept IH]; simpl; [constructor|].
      inversion Hr; subst. constructor; [|auto].
      intros Hin. apply in_map_iff in Hin. destruct Hin as (e' & [= E] & Hin).
      match goal with H : ~ In _ _ |- _ => apply H end.
      rewrite <- E. now apply in_map.
    + apply IH.
    + intros p Hp Hq. unfold candidate_pairs in Hp.
      apply in_map_iff in Hp. destruct Hp as (e & <- & _).
      pose proof (pairs_from_lower _ _ HF (t0 + 1)) as Hl.
      rewrite Forall_forall in Hl. specialize (Hl _ Hq). simpl in Hl. lia.
Qed.

Lemma pairs_from_length targets rankings :
  Forall2 ranked targets rankings ->
  forall t0,
    length (pairs_from t0 rankings)
    = (length targets * Z.to_nat N_BEST_PAIRS)%nat.
Proof.
  induction 1 as [|tp kept targets rankings Hr HF IH]; intros t0; simpl.
  - reflexivity.
  - rewrite length_app, IH. unfold candidate_pairs. rewrite length_map.
    apply similarity_ranker_length in Hr. destruct Hr as [Hr _]. lia.
Qed.
End Placed.

Section BuildProperties.
Context {P : Parameters}.
Variables desc_target desc_ligand : SurfaceDescriptors.

Lemma placed_complementary rankings :
  Forall2 (fun t_patch kept => similarity_ranker t_patch desc_ligand = Ok kept)
          desc_target rankings ->
  Forall (complementary desc_target desc_ligand) (pairs_from 0 rankings).
Proof.
  intros HF. apply Forall_forall. intros p Hp.
  apply (pairs_from_In _ _ _ HF) in Hp.
  destruct Hp as (k & tp & kept & lig & Hk & Hr & Hl & ->).
  destruct (similarity_ranker_entries _ _ _ _ Hr Hl) as (lp & Hlp & He & _).
  exists tp, lp. cbn [fst snd]. rewrite Z.add_0_l, at_index_of_nat, Hk. auto.
Qed.

(** X11: complementarity is kept: when every pair of the incoming groups
    names a target patch and a ligand patch of different convexity classes,
    so does every pair of the groups on return. *)
Theorem build_matching_groups_complementary groups_out groups :
  build_matching_groups desc_target desc_ligand groups_out = Ok groups ->
  Forall (Forall (complementary desc_target desc_ligand)) groups_out ->
  Forall (Forall (complementary desc_target desc_ligand)) groups.
Proof.
  intros H Hg. apply targets_from_place_all in H.
  destruct H as (rankings & HF & H).
  eapply place_all_Forall; [|eassumption|assumption].
  now apply placed_complementary.
Qed.

(** X12: no group is left empty: when no incoming group is empty, no group
    is empty on return. *)
Theorem build_matching_groups_nonempty groups_out groups :
  build_matching_groups desc_target desc_ligand groups_out = Ok groups ->
  Forall (fun grp => grp <> []) groups_out ->
  Forall (fun grp => grp <> []) groups.
Proof.
  intros H Hg. apply targets_from_place_all in H.
  destruct H as (rankings & HF & H).
  eapply place_all_nonempty; eassumption.
Qed.

(** X13: no kept candidate is lost: for every target patch and every
    candidate kept for it, some group on return holds their pair. *)
Theorem build_matching_groups_covers groups_out groups k t_patch kept lig :
  build_matching_groups desc_target desc_ligand groups_out = Ok groups ->
  nth_error desc_target k = Some t_patch ->
  similarity_ranker t_patch desc_ligand = Ok kept ->
  In lig kept ->
  covered (Z.of_nat k, snd lig) groups.
Proof.
  intros H Hk Hr Hl. apply targets_from_place_all in H.
  destruct H as (rankings & HF & H).
  eapply place_all_covered; [eassumption|].
  apply (pairs_from_In _ _ _ HF). exists k, t_patch, kept, lig. auto.
Qed.

(** X14: starting from no group, no group on return holds a pair twice. *)
Theorem build_matching_groups_NoDup groups :
  build_matching_groups desc_target desc_ligand [] = Ok groups ->
  Forall (@NoDup (Z * Z)) groups.
Proof.
  intros H. apply targets_from_place_all in H.
  destruct H as (rankings & HF & H).
  eapply place_all_NoDup; [|eassumption| |constructor].
  - eapply pairs_from_NoDup; eassumption.
  - intros p grp _ [].
Qed.

(** X15: the groups on return are at least as many as on entry and at most
    [N_BEST_PAIRS] more per target patch. *)
Theorem build_matching_groups_count groups_out groups :
  build_matching_groups desc_target desc_ligand groups_out = Ok groups ->
  (length groups_out <= length groups
   <= length groups_out + length desc_target * Z.to_nat N_BEST_PAIRS)%nat.
Proof.
  intros H. apply targets_from_place_all in H.
  destruct H as (rankings & HF & H).
  apply place_all_length in H.
  now rewrite (pairs_from_length _ _ _ HF) in H.
Qed.

Lemma close_to_sym a b :
  close_to desc_target desc_ligand a b -> close_to desc_target desc_ligand b a.
Proof.
  intros (dt & dl & H1 & H2 & H3 & H4). exists dt, dl.
  rewrite geodesic_distance_swap, H1.
  rewrite (geodesic_distance_swap (snd b)), H2. auto.
Qed.

(** X16: starting from no group, any two pairs that sit at different
    places of a group on return are close to each other in both directions:
    the four geodesic distances are defined and none exceeds [G_THRESH]. *)
Theorem build_matching_groups_mutually_close groups grp prior a between b later :
  build_matching_groups desc_target desc_ligand [] = Ok groups ->
  In grp groups ->
  grp = prior ++ a :: between ++ b :: later ->
  close_to desc_target desc_ligand a b /\ close_to desc_target desc_ligand b a.
Proof.
  intros H Hin E.
  assert (Hinv : Forall (inserted_pairwise desc_target desc_ligand) groups).
  { eapply targets_from_inserted; [exact H | constructor]. }
  rewrite Forall_forall in Hinv. specialize (Hinv _ Hin).
  assert (Hba : close_to desc_target desc_ligand b a).
  { assert (Hc : criterion desc_target desc_ligand b (prior ++ a :: between)).
    { apply (Hinv _ b later). rewrite E, <- app_assoc. reflexivity. }
    unfold criterion in Hc. rewrite Forall_forall in Hc. apply Hc.
    apply in_or_app. right. now left. }
  split; [now apply close_to_sym | assumption].
Qed.
End BuildProperties.

Lemma build_matching_groups_complementary_witness :
  Forall (Forall (complementary sample_target sample_ligand)) sample_groups.
Proof.
  apply (@build_matching_groups_complementary sample_parameters
           sample_target sample_ligand [] sample_groups).
  - vm_compute. reflexivity.
  - constructor.
Defined.

Lemma build_matching_groups_nonempty_witness :
  Forall (fun grp : MatchingGroup => grp <> []) sample_groups.
Proof.
  apply (@build_matching_groups_nonempty sample_parameters
           sample_target sample_ligand [] sample_groups).
  - vm_compute. reflexivity.
  - constructor.
Defined.

Lemma build_matching_groups_covers_witness :
  covered (Z.of_nat 2, 1) sample_groups.
Proof.
  apply (@build_matching_groups_covers sample_parameters
           sample_target sample_ligand [] sample_groups 2
           (patch_of (lit 2 0) (lit 4 0) Convex [2])
           [(zero, 2); (lit 1 (-1), 1)] (lit 1 (-1), 1)).
  - vm_compute. reflexivity.
  - reflexivity.
  - vm_compute. reflexivity.
  - right. now left.
Defined.

Lemma build_matching_groups_NoDup_witness :
  Forall (@NoDup (Z * Z)) sample_groups.
Proof.
  apply (@build_matching_groups_NoDup sample_parameters
           sample_target sample_ligand sample_groups).
  vm_compute. reflexivity.
Defined.

Lemma build_matching_groups_count_witness :
  (length (@nil MatchingGroup) <= length sample_groups
   <= length (@nil MatchingGroup) + length sample_target * Z.to_nat 2)%nat.
Proof.
  apply (@build_matching_groups_count sample_parameters
           sample_target sample_ligand [] sample_groups).
  vm_compute. reflexivity.
Defined.

Lemma build_matching_groups_mutually_close_witness :
  close_to (P := sample_parameters) sample_target sample_ligand (0, 0) (2, 2) /\
  close_to (P := sample_parameters) sample_target sample_ligand (2, 2) (0, 0).
Proof.
  apply (@build_matching_groups_mutually_close sample_parameters
           sample_target sample_ligand sample_groups
           [(0, 0); (0, 4); (2, 2)] [] (0, 0) [(0, 4)] (2, 2) []).
  - vm_compute. reflexivity.
  - now left.
  - reflexivity.
Defined.

(** ** Further properties of the dissimilarity score *)

(** X9: two patches of the same curvature, a number other than zero, have
    a dissimilarity score of zero. *)
Theorem dissimilarity_equal_curvature t_patch l_patch :
  curv (snd t_patch) = curv (snd l_patch) ->
  is_nonzero_finite (curv (snd t_patch)) = true ->
  is_zero (dissimilarity t_patch l_patch) = true.
Proof.
  unfold dissimilarity. intros <- Hc.
  destruct (curv (snd t_patch)) as [| | |s m e] eqn:E; try discriminate.
  rewrite sub_self by reflexivity.
  unfold max. rewrite double_ltb_irrefl. reflexivity.
Qed.

Lemma fabs_sign x :
  fabs x = S754_nan \/ fabs x = S754_zero false \/
  fabs x = S754_infinity false \/ exists m e, fabs x = S754_finite false m e.
Proof. destruct x; simpl; eauto 6. Qed.

Lemma div_sign_of_divisor n d s :
  (n = S754_nan \/ n = S754_zero false \/ n = S754_infinity false \/
   exists m e, n = S754_finite false m e) ->
  (d = S754_infinity s \/ exists m e, d = S754_finite s m e) ->
  let r := div n d in
  r = S754_nan \/ r = S754_zero s \/ r = S754_infinity s \/
  exists m e, r = S754_finite s m e.
Proof.
  intros [->|[->|[->|(m & e & ->)]]] [->|(m' & e' & ->)] r; subst r;
    unfold div, SFdiv; cbn [xorb];
    try (left; reflexivity);
    try (right; left; reflexivity);
    try (right; right; left; reflexivity).
  destruct (SFdiv_core_binary prec emax (Z.pos m) e (Z.pos m') e')
    as [[mz ez] lz].
  apply binary_round_aux_cases.
Qed.

(** X10: the score has the sign of the larger curvature: it is never
    positive when the larger curvature is negative, and never negative when
    the larger curvature is positive. *)
Theorem dissimilarity_sign t_patch l_patch :
  let larger := max (curv (snd t_patch)) (curv (snd l_patch)) in
  (ltb larger zero = true -> ltb zero (dissimilarity t_patch l_patch) = false) /\
  (ltb zero larger = true -> ltb (dissimilarity t_patch l_patch) zero = false).
Proof.
  intros larger. unfold dissimilarity. fold larger.
  pose proof (fabs_sign (sub (curv (snd t_patch)) (curv (snd l_patch)))) as Hn.
  split; intros Hl.
  - assert (Hd : larger = S754_infinity true \/
                 exists m e, larger = S754_finite true m e).
    { destruct larger as [s|[]| |[] m e]; try discriminate; eauto;
        destruct s; discriminate. }
    destruct (div_sign_of_divisor _ _ true Hn Hd)
      as [->|[->|[->|(m & e & ->)]]]; reflexivity.
  - assert (Hd : larger = S754_infinity false \/
                 exists m e, larger = S754_finite false m e).
    { destruct larger as [s|[]| |[] m e]; try discriminate; eauto;
        destruct s; discriminate. }
    destruct (div_sign_of_divisor _ _ false Hn Hd)
      as [->|[->|[->|(m & e & ->)]]]; reflexivity.
Qed.

Lemma dissimilarity_equal_curvature_witness :
  is_zero (dissimilarity (patch_of zero two Convex []) (patch_of one two Concave []))
  = true.
Proof.
  apply dissimilarity_equal_curvature; reflexivity.
Defined.

Lemma dissimilarity_sign_witness :
  ltb zero (dissimilarity (patch_of zero (neg one) Convex [])
                          (patch_of zero (neg two) Concave [])) = false.
Proof.
  apply (proj1 (dissimilarity_sign (patch_of zero (neg one) Convex [])
                  (patch_of zero (neg two) Concave []))).
  reflexivity.
Defined.

(** ** Further properties of [comp_point] *)

Lemma comp_point_true lhs rhs :
  comp_point lhs rhs = true <->
  ltb (vx lhs) (vx rhs) = true \/
  (eqb (vx lhs) (vx rhs) = true /\
   (ltb (vy lhs) (vy rhs) = true \/
    (eqb (vy lhs) (vy rhs) = true /\ ltb (vz lhs) (vz rhs) = true))).
Proof.
  unfold comp_point.
  destruct (eqb (vx lhs) (vx rhs)) eqn:E1; simpl.
  - pose proof (double_eqb_not_ltb _ _ E1) as [L1 _].
    destruct (eqb (vy lhs) (vy rhs)) eqn:E2; simpl.
    + pose proof (double_eqb_not_ltb _ _ E2) as [L2 _].
      destruct (eqb (vz lhs) (vz rhs)) eqn:E3; simpl.
      * pose proof (double_eqb_not_ltb _ _ E3) as [L3 _].
        intuition congruence.
      * intuition congruence.
    + intuition congruence.
  - intuition congruence.
Qed.

(** X4: [comp_point] is a strict order on all points, NaN coordinates
    included: irreflexive, asymmetric and transitive. *)
Theorem comp_point_strict_order :
  (forall p, comp_point p p = false) /\
  (forall p q, comp_point p q = true -> comp_point q p = false) /\
  (forall p q r,
     comp_point p q = true -> comp_point q r = true -> comp_point p r = true).
Proof.
  assert (Htrans : forall p q r,
     comp_point p q = true -> comp_point q r = true -> comp_point p r = true).
  { intros p q r. rewrite !comp_point_true.
    intros [H1|[E1 [H1|[E1' H1]]]] [H2|[E2 [H2|[E2' H2]]]];
      eauto 8 using double_ltb_trans, double_ltb_eqb, double_eqb_ltb,
        double_eqb_trans. }
  assert (Hirr : forall p, comp_point p p = false).
  { intros p. destruct (comp_point p p) eqn:E; [|reflexivity].
    apply comp_point_true in E. rewrite !double_ltb_irrefl in E.
    intuition discriminate. }
  split; [exact Hirr|]. split; [|exact Htrans].
  intros p q H. destruct (comp_point q p) eqn:E; [|reflexivity].
  rewrite <- (Hirr p). symmetry. eapply Htrans; eassumption.
Qed.

Lemma ltb_nan_l x y : is_nan x = true -> ltb x y = false.
Proof. destruct x; try discriminate. reflexivity. Qed.
Lemma ltb_nan_r x y : is_nan y = true -> ltb x y = false.
Proof. destruct y; try discriminate. destruct x; reflexivity. Qed.
Lemma eqb_nan_l x y : is_nan x = true -> eqb x y = false.
Proof. destruct x; try discriminate. reflexivity. Qed.
Lemma eqb_nan_r x y : is_nan y = true -> eqb x y = false.
Proof. destruct y; try discriminate. destruct x; reflexivity. Qed.

(** X5: a point whose first coordinate is NaN neither precedes nor follows
    any point, so that points [q] and [r] of which one precedes the other
    are both equivalent to it: with such a point the equivalence that
    [comp_point] induces is not transitive. *)
Theorem comp_point_nan_incomparable p :
  is_nan (vx p) = true ->
  (forall q, comp_point p q = false /\ comp_point q p = false) /\
  (forall q r,
     comp_point q r = true ->
     comp_point q p = false /\ comp_point p q = false /\
     comp_point p r = false /\ comp_point r p = false).
Proof.
  intros H.
  assert (Hq : forall q, comp_point p q = false /\ comp_point q p = false).
  { intros q. unfold comp_point.
    rewrite (eqb_nan_l (vx p)), (ltb_nan_l (vx p)) by assumption.
    rewrite (eqb_nan_r (vx q) (vx p)), (ltb_nan_r (vx q) (vx p)) by assumption.
    split; reflexivity. }
  split; [exact Hq|].
  intros q r _. destruct (Hq q), (Hq r). auto.
Qed.

Lemma comp_point_nan_incomparable_witness :
  comp_point (vec3 nan zero zero) (vec3 one zero zero) = false /\
  comp_point (vec3 one zero zero) (vec3 nan zero zero) = false.
Proof.
  apply (proj1 (comp_point_nan_incomparable (vec3 nan zero zero) eq_refl)).
Defined.

Lemma comp_point_strict_order_witness :
  comp_point (vec3 one zero zero) (vec3 zero zero zero) = false.
Proof.
  apply (proj1 (proj2 comp_point_strict_order)
           (vec3 zero zero zero) (vec3 one zero zero)).
  reflexivity.
Defined.

(** ** Further properties of [build_cloud_from_group] *)

Lemma set_insert_length p cloud :
  (length cloud <= length (set_insert p cloud) <= S (length cloud))%nat.
Proof.
  induction cloud as [|q rest IH]; simpl; [lia|].
  destruct (comp_point p q); simpl; [lia|].
  destruct (comp_point q p); simpl; lia.
Qed.

Lemma set_insert_nonempty p cloud : (1 <= length (set_insert p cloud))%nat.
Proof.
  destruct cloud as [|q rest]; simpl; [lia|].
  destruct (comp_point p q); simpl; [lia|].
  destruct (comp_point q p); simpl; lia.
Qed.

Lemma insert_all_length pts :
  forall cloud,
    (length cloud <= length (insert_all pts cloud)
     <= length cloud + length pts)%nat /\
    (pts <> [] -> insert_all pts cloud <> []).
Proof.
  induction pts as [|p rest IH]; intros cloud.
  - simpl. split; [lia | congruence].
  - change (insert_all (p :: rest) cloud)
      with (insert_all rest (set_insert p cloud)).
    destruct (IH (set_insert p cloud)) as [IH1 _].
    pose proof (set_insert_length p cloud) as Hs.
    pose proof (set_insert_nonempty p cloud) as Hn.
    split; [simpl; lia|]. intros _ E.
    rewrite E in IH1. simpl in IH1. lia.
Qed.

(** X6: the cloud never has more points than the member patches have
    nodes, and it is empty only when they have none. *)
Theorem build_cloud_from_group_size group descriptors target cloud avg_normal pts :
  build_cloud_from_group group descriptors target = Ok (cloud, avg_normal) ->
  group_positions group descriptors target = Ok pts ->
  (length cloud <= length pts)%nat /\ (cloud = [] <-> pts = []).
Proof.
  rewrite build_cloud_from_group_eq. intros H Hp. rewrite Hp in H. simpl in H.
  inv_bind H. injection H as <- _.
  destruct (insert_all_length pts []) as [H1 H2]. simpl in H1.
  split; [lia|]. split.
  - intros E. destruct pts as [|p rest]; [reflexivity|].
    exfalso. apply H2; [discriminate | assumption].
  - intros ->. reflexivity.
Qed.

Lemma point_lt_eq p q r : point_lt p q -> point_eq q r -> point_lt p r.
Proof.
  unfold point_eq, point_lt. intros H (E1 & E2 & E3).
  rewrite <- E1, <- E2, <- E3. tauto.
Qed.

Lemma point_eq_refl p : point_eq p p.
Proof. unfold point_eq. auto. Qed.

(** Two strictly increasing sequences with the same points, up to equality
    of the coordinates, agree element by element. *)
Lemma sorted_classes_unique l1 :
  forall l2,
    StronglySorted point_lt l1 -> StronglySorted point_lt l2 ->
    (forall p, (exists q, In q l1 /\ point_eq p q) <->
               (exists q, In q l2 /\ point_eq p q)) ->
    Forall2 point_eq l1 l2.
Proof.
  induction l1 as [|a l1 IH]; intros l2 H1 H2 Hc.
  - destruct l2 as [|b l2]; [constructor|].
    destruct (proj2 (Hc b)) as (q & [] & _).
    exists b. split; [now left | apply point_eq_refl].
  - destruct l2 as [|b l2].
    { destruct (proj1 (Hc a)) as (q & [] & _).
      exists a. split; [now left | apply point_eq_refl]. }
    inversion H1 as [|? ? S1 F1]; subst. inversion H2 as [|? ? S2 F2]; subst.
    rewrite Forall_forall in F1, F2.
    assert (Hab : point_eq a b).
    { destruct (proj1 (Hc a)) as (b' & Hb' & Eab');
        [exists a; split; [now left | apply point_eq_refl]|].
      destruct (proj2 (Hc b)) as (a' & Ha' & Eba');
        [exists b; split; [now left | apply point_eq_refl]|].
      destruct Hb' as [<-|Hb']; [assumption|].
      destruct Ha' as [<-|Ha']; [now apply point_eq_sym|].
      exfalso. apply (point_lt_irrefl b).
      eapply point_lt_trans; [apply F2; exact Hb'|].
      eapply point_eq_lt; [apply point_eq_sym; exact Eab'|].
      eapply point_lt_eq; [apply F1; exact Ha'|].
      now apply point_eq_sym. }
    constructor; [assumption|].
    apply IH; [assumption..|].
    intros p. split.
    + intros (q & Hq & Epq).
      destruct (proj1 (Hc p)) as (q2 & Hq2 & Epq2);
        [exists q; split; [now right | assumption]|].
      destruct Hq2 as [<-|Hq2]; [|eauto].
      exfalso. apply (point_lt_irrefl a).
      eapply point_lt_eq; [apply F1; exact Hq|].
      eapply point_eq_trans; [apply point_eq_sym; exact Epq|].
      eapply point_eq_trans; [exact Epq2 | now apply point_eq_sym].
    + intros (q & Hq & Epq).
      destruct (proj2 (Hc p)) as (q1 & Hq1 & Epq1);
        [exists q; split; [now right | assumption]|].
      destruct Hq1 as [<-|Hq1]; [|eauto].
      exfalso. apply (point_lt_irrefl b).
      eapply point_lt_eq; [apply F2; exact Hq|].
      eapply point_eq_trans; [apply point_eq_sym; exact Epq|].
      eapply point_eq_trans; [exact Epq1 | assumption].
Qed.

Lemma reachable_same_patches g1 g2 descriptors target p :
  (forall i, In i g1 -> In i g2) ->
  reachable g1 descriptors target p -> reachable g2 descriptors target p.
Proof.
  intros Hi (i & d & j & n & H1 & H2). exists i, d, j, n. split; [auto|assumption].
Qed.

Lemma cloud_classes group descriptors target pts :
  group_positions group descriptors target = Ok pts ->
  points_ok pts ->
  points_ok (insert_all pts []) /\
  StronglySorted point_lt (insert_all pts []) /\
  forall p, (exists q, In q (insert_all pts []) /\ point_eq p q) <->
            (exists r, reachable group descriptors target r /\ point_eq p r).
Proof.
  intros Hp Hok.
  destruct (insert_all_spec pts Hok []) as (H1 & H2 & H3 & H4);
    [constructor | constructor |].
  split; [assumption|]. split; [assumption|].
  intros p. split.
  - intros (q & Hq & E). exists q. split; [|assumption].
    apply (reachable_iff _ _ _ _ Hp). destruct (H3 _ Hq) as [?|[]]. assumption.
  - intros (r & Hr & E). apply (reachable_iff _ _ _ _ Hp) in Hr.
    destruct (H4 r (or_introl Hr)) as (q & Hq & Erq).
    exists q. split; [assumption | eapply point_eq_trans; eassumption].
Qed.

(** X7: the cloud depends only on which patches the group names, not on
    their order or on repetitions: two groups with the same patch indices
    give clouds that agree element by element under IEEE equality, when no
    position has a NaN coordinate. *)
Theorem build_cloud_from_group_order_independent
    group1 group2 descriptors target cloud1 normal1 cloud2 normal2 :
  (forall i, In i group1 <-> In i group2) ->
  (forall p, reachable group1 descriptors target p -> vec3_no_nan p = true) ->
  build_cloud_from_group group1 descriptors target = Ok (cloud1, normal1) ->
  build_cloud_from_group group2 descriptors target = Ok (cloud2, normal2) ->
  Forall2 (fun p q => glm.vec3_eqb p q = true) cloud1 cloud2.
Proof.
  intros Hi Hnan. rewrite !build_cloud_from_group_eq. intros B1 B2.
  inv_bind B1. inv_bind B1. injection B1 as <- _.
  inv_bind B2. inv_bind B2. injection B2 as <- _.
  rename a into pts1, a1 into pts2.
  assert (Hsame : forall p, reachable group1 descriptors target p <->
                            reachable group2 descriptors target p).
  { intros p. split; apply reachable_same_patches; intros i; apply Hi. }
  assert (Hok1 : points_ok pts1).
  { apply Forall_forall. intros p Hp. apply Hnan.
    now apply (reachable_iff _ _ _ _ Ha). }
  assert (Hok2 : points_ok pts2).
  { apply Forall_forall. intros p Hp. apply Hnan, Hsame.
    now apply (reachable_iff _ _ _ _ Ha1). }
  destruct (cloud_classes _ _ _ _ Ha Hok1) as (O1 & S1 & C1).
  destruct (cloud_classes _ _ _ _ Ha1 Hok2) as (O2 & S2 & C2).
  assert (HF : Forall2 point_eq (insert_all pts1 []) (insert_all pts2 [])).
  { apply sorted_classes_unique; [assumption..|].
    intros p. rewrite C1, C2. split; intros (r & Hr & E); exists r;
      (split; [now apply Hsame | assumption]). }
  unfold points_ok in O1, O2. rewrite Forall_forall in O1, O2.
  clear -HF O1 O2.
  induction HF as [|p q l1 l2 E HF IH]; constructor.
  - apply vec3_eqb_spec; [apply O1; now left | apply O2; now left | assumption].
  - apply IH; intros; [apply O1 | apply O2]; now right.
Qed.

Lemma build_cloud_from_group_size_witness :
  (length [vec3 zero zero zero; vec3 one zero zero] <= 4)%nat /\
  ([vec3 zero zero zero; vec3 one zero zero] = [] <->
   [vec3 zero zero zero; vec3 one zero zero;
    vec3 one zero zero; vec3 zero zero zero] = []).
Proof.
  apply (build_cloud_from_group_size [0; 1] sample_target sample_mesh
           [vec3 zero zero zero; vec3 one zero zero] (vec3 zero zero one)
           [vec3 zero zero zero; vec3 one zero zero;
            vec3 one zero zero; vec3 zero zero zero]); reflexivity.
Defined.

Lemma build_cloud_from_group_order_independent_witness :
  Forall2 (fun p q => glm.vec3_eqb p q = true)
    [vec3 zero zero zero; vec3 one zero zero]
    [vec3 zero zero zero; vec3 one zero zero].
Proof.
  refine (build_cloud_from_group_order_independent [0; 1] [1; 0; 1]
            sample_target sample_mesh _ (vec3 zero zero one)
            _ (vec3 zero zero one) _ _ _ _).
  - intros i. simpl. tauto.
  - intros p Hp.
    apply (reachable_iff [0; 1] sample_target sample_mesh
             [vec3 zero zero zero; vec3 one zero zero;
              vec3 one zero zero; vec3 zero zero zero] eq_refl) in Hp.
    simpl in Hp. repeat (destruct Hp as [<-|Hp]; [reflexivity|]). contradiction.
  - reflexivity.
  - vm_compute. reflexivity.
Defined.

(** ** Further properties of the rotation *)

Lemma neg_involutive x : neg (neg x) = x.
Proof. destruct x as [[]|[]| |[] m e]; reflexivity. Qed.

Lemma binary_round_aux_negb s m e l :
  binary_round_aux prec emax (negb s) m e l
  = neg (binary_round_aux prec emax s m e l).
Proof.
  destruct s; simpl.
  - now rewrite binary_round_aux_opp, neg_involutive.
  - apply binary_round_aux_opp.
Qed.

Lemma mul_neg_r a b : mul a (neg b) = neg (mul a b).
Proof.
  destruct a as [sa|sa| |sa ma ea], b as [sb|sb| |sb mb eb];
    try reflexivity; try (destruct sa, sb; reflexivity).
  unfold mul, neg. cbn [SFopp SFmul].
  rewrite <- negb_xorb_r. apply binary_round_aux_negb.
Qed.

Lemma mul_neg_l a b : mul (neg a) b = neg (mul a b).
Proof.
  destruct a as [sa|sa| |sa ma ea], b as [sb|sb| |sb mb eb];
    try reflexivity; try (destruct sa, sb; reflexivity).
  unfold mul, neg. cbn [SFopp SFmul].
  rewrite <- negb_xorb_l. apply binary_round_aux_negb.
Qed.

Lemma is_finite_neg x : is_finite (neg x) = is_finite x.
Proof. destruct x; reflexivity. Qed.

Lemma cross_antiparallel n :
  is_finite (mul (vy n) (vz n)) = true ->
  is_finite (mul (vz n) (vx n)) = true ->
  is_finite (mul (vx n) (vy n)) = true ->
  glm.cross n (glm.vneg n) = vec3 zero zero zero.
Proof.
  intros H1 H2 H3. unfold glm.cross, glm.vneg. cbn [vx vy vz].
  rewrite !mul_neg_r, !mul_neg_l.
  rewrite !sub_self by (rewrite is_finite_neg; assumption).
  reflexivity.
Qed.

(** A rotation about the zero axis is the identity matrix, whatever the
    angle, as long as the angle is a number. *)
Lemma zero_axis_identity {M : Libm} ligand_normal target_normal :
  glm.cross ligand_normal target_normal = vec3 zero zero zero ->
  is_finite (rot_angle_of ligand_normal target_normal) = true ->
  glm.mat4_eqb (align_normals_of ligand_normal target_normal) glm.identity
  = true.
Proof.
  intros Hc Ha. unfold align_normals_of. rewrite Hc. cbn [vx vy vz].
  destruct (mul_zero_finite (sin (rot_angle_of ligand_normal target_normal)))
    as (b & ->); [now apply sin_finite|].
  apply mat4_cast_zero_axis. now apply cos_finite.
Qed.

(** X17: when the two normals are equal, the axis is the zero vector and
    the rotation is the identity matrix, for any angle that is a number. *)
Theorem parallel_normals_identity {M : Libm} n :
  is_finite (mul (vy n) (vz n)) = true ->
  is_finite (mul (vz n) (vx n)) = true ->
  is_finite (mul (vx n) (vy n)) = true ->
  is_finite (rot_angle_of n n) = true ->
  glm.cross n n = vec3 zero zero zero /\
  glm.mat4_eqb (align_normals_of n n) glm.identity = true.
Proof.
  intros H1 H2 H3 Ha.
  assert (Hc : glm.cross n n = vec3 zero zero zero).
  { unfold glm.cross. now rewrite !sub_self. }
  split; [assumption|]. now apply zero_axis_identity.
Qed.

Lemma parallel_normals_identity_witness :
  glm.cross (vec3 zero zero one) (vec3 zero zero one) = vec3 zero zero zero /\
  glm.mat4_eqb
    (@align_normals_of coarse_libm (vec3 zero zero one) (vec3 zero zero one))
    glm.identity = true.
Proof.
  apply (@parallel_normals_identity coarse_libm (vec3 zero zero one));
    reflexivity.
Defined.

(** X18: when the target normal is the opposite of the ligand normal, the
    axis is the zero vector and the rotation is the identity matrix: the
    ligand normal is not turned onto the target normal. *)
Theorem antiparallel_normals_identity {M : Libm} n :
  is_finite (mul (vy n) (vz n)) = true ->
  is_finite (mul (vz n) (vx n)) = true ->
  is_finite (mul (vx n) (vy n)) = true ->
  is_finite (rot_angle_of n (glm.vneg n)) = true ->
  glm.cross n (glm.vneg n) = vec3 zero zero zero /\
  glm.mat4_eqb (align_normals_of n (glm.vneg n)) glm.identity = true.
Proof.
  intros H1 H2 H3 Ha.
  pose proof (cross_antiparallel n H1 H2 H3) as Hc.
  split; [assumption|]. now apply zero_axis_identity.
Qed.

Lemma antiparallel_normals_identity_witness :
  glm.cross (vec3 zero zero one) (glm.vneg (vec3 zero zero one))
    = vec3 zero zero zero /\
  glm.mat4_eqb
    (@align_normals_of coarse_libm (vec3 zero zero one)
       (glm.vneg (vec3 zero zero one))) glm.identity = true.
Proof.
  apply (@antiparallel_normals_identity coarse_libm (vec3 zero zero one));
    reflexivity.
Defined.

(** ** Further properties of [transformations_from_matching_groups] *)

(** X19: one call on the groups [groups1 ++ groups2] does what a call on
    [groups1] followed by a call on [groups2] with the same output vector
    does, undefined behaviour included. *)
Theorem transformations_from_matching_groups_app {M : Libm} {L : Linalg}
    groups1 groups2 target desc_target ligand desc_ligand :
  forall mg_transformation,
    transformations_from_matching_groups (groups1 ++ groups2)
      target desc_target ligand desc_ligand mg_transformation
    = (mg <- transformations_from_matching_groups groups1
               target desc_target ligand desc_ligand mg_transformation ;;
       transformations_from_matching_groups groups2
         target desc_target ligand desc_ligand mg).
Proof.
  induction groups1 as [|MG rest IH]; intros mg0; simpl.
  - reflexivity.
  - destruct (group_transformation MG target desc_target ligand desc_ligand);
      simpl; [apply IH | reflexivity].
Qed.
